(** * Verification of the dashboard state/broadcast hub (src/dashboard.py)

    The development embeds the Python class [DashboardState], the logging
    adapter [DashboardLogHandler] and the streaming loop of
    [DashboardHandler._serve_sse] as functions over an explicit object
    store, and proves properties of the log buffer, the snapshot, the
    subscriber registry and the wire framing.

    Python objects that can be mutated in place (lists, dicts, queues)
    live in a store indexed by their identity; immutable values (None,
    bool, int, float, str) are carried inline.

    The model is sequential: a call runs to completion before the next one
    starts.  The registry is only touched under [self._lock] and a [get]
    on one queue commutes with a [put_nowait] on another, so a [get] that
    overlaps a publish acts as if it came just before or just after it. *)

From Stdlib Require Import ZArith String Ascii.
From Stdlib Require Import Floats.PrimFloat.
From stdpp Require Import strings functions fin_maps gmap list.

Open Scope Z_scope.

(** ** Python values and the object store *)

(** Identity of a mutable object ([id(obj)]). *)
Definition loc := nat.

Inductive val :=
  | VNone
  | VBool (b : bool)
  | VInt (z : Z)
  | VFloat (f : float)
  | VStr (s : string)
  | VList (l : loc)     (* reference to a list object *)
  | VDict (l : loc).    (* reference to a dict object *)

(** An event as queued by [_send_event]: the tuple [(event_type, data)]. *)
Definition msg : Type := string * string.

(** [queue.Queue(maxsize)]: a FIFO of items, oldest first. *)
Record Queue := mkQueue { maxsize : Z; items : list msg }.

(** The 28 dataclass fields of [DashboardState] that [to_dict] reads, in
    declaration order of the dict literal. *)
Inductive attr :=
  | status | current_market | market_asset | market_duration | market_ends
  | markets_found | windows_scanned
  | up_best_ask | up_best_bid | down_best_ask | down_best_bid | combined_ask
  | up_depth | down_depth | fee_bps
  | bankroll | deployed | available | realized_pnl | daily_spent
  | exchange_balance
  | opportunities_seen | opportunities_traded | last_plan
  | fill_rate | api_stats
  | positions | config.

#[global] Instance attr_eq_dec : EqDecision attr.
Proof. solve_decision. Defined.

Definition attr_name (a : attr) : string :=
  match a with
  | status => "status" | current_market => "current_market"
  | market_asset => "market_asset" | market_duration => "market_duration"
  | market_ends => "market_ends" | markets_found => "markets_found"
  | windows_scanned => "windows_scanned"
  | up_best_ask => "up_best_ask" | up_best_bid => "up_best_bid"
  | down_best_ask => "down_best_ask" | down_best_bid => "down_best_bid"
  | combined_ask => "combined_ask" | up_depth => "up_depth"
  | down_depth => "down_depth" | fee_bps => "fee_bps"
  | bankroll => "bankroll" | deployed => "deployed"
  | available => "available" | realized_pnl => "realized_pnl"
  | daily_spent => "daily_spent" | exchange_balance => "exchange_balance"
  | opportunities_seen => "opportunities_seen"
  | opportunities_traded => "opportunities_traded"
  | last_plan => "last_plan" | fill_rate => "fill_rate"
  | api_stats => "api_stats" | positions => "positions" | config => "config"
  end.

(** The keys of the dict literal in [to_dict], in source order. *)
Definition to_dict_keys : list attr :=
  [ status; current_market; market_asset; market_duration; market_ends;
    markets_found; windows_scanned;
    up_best_ask; up_best_bid; down_best_ask; down_best_bid; combined_ask;
    up_depth; down_depth; fee_bps;
    bankroll; deployed; available; realized_pnl; daily_spent;
    exchange_balance;
    opportunities_seen; opportunities_traded; last_plan;
    fill_rate; api_stats;
    positions; config ].

Definition attr_of_name (name : string) : option attr :=
  List.find (fun a => String.eqb (attr_name a) name) to_dict_keys.

(** The instance of the dataclass.  [fields] holds the 28 public
    attributes; [extra] holds attributes assigned under a name that no
    dataclass field has (the instance has no [__slots__], so Python stores
    them); the private attributes keep their source names.  [_lock] has no
    content: its critical sections are atomic here. *)
Record DashboardState := mkState {
  fields : attr -> val;
  extra : gmap string val;
  _log_lines : loc;             (* reference to the list of log lines *)
  _max_log_lines : Z;
  _subscribers : list loc       (* identities of the registered queues *)
}.

(** Everything a call can read or change: the global [state] instance and
    the store of list, dict and queue objects. *)
Record World := mkWorld {
  state : DashboardState;
  lists : gmap loc (list val);
  dicts : gmap loc (list (string * val));
  queues : gmap loc Queue
}.

Definition set_state (s : DashboardState) (w : World) : World :=
  mkWorld s (lists w) (dicts w) (queues w).
Definition set_lists (m : gmap loc (list val)) (w : World) : World :=
  mkWorld (state w) m (dicts w) (queues w).
Definition set_dicts (m : gmap loc (list (string * val))) (w : World) : World :=
  mkWorld (state w) (lists w) m (queues w).
Definition set_queues (m : gmap loc Queue) (w : World) : World :=
  mkWorld (state w) (lists w) (dicts w) m.

Definition set_fields (f : attr -> val) (s : DashboardState) : DashboardState :=
  mkState f (extra s) (_log_lines s) (_max_log_lines s) (_subscribers s).
Definition set_extra (e : gmap string val) (s : DashboardState) : DashboardState :=
  mkState (fields s) e (_log_lines s) (_max_log_lines s) (_subscribers s).
Definition set_log_lines (l : loc) (s : DashboardState) : DashboardState :=
  mkState (fields s) (extra s) l (_max_log_lines s) (_subscribers s).
Definition set_subscribers (qs : list loc) (s : DashboardState) : DashboardState :=
  mkState (fields s) (extra s) (_log_lines s) (_max_log_lines s) qs.

(** ** Exceptions and the state-and-exception monad *)

Inductive exn :=
  | Full                          (* queue.Full *)
  | Empty                         (* queue.Empty *)
  | ValueError                    (* list.remove(x): x not in list *)
  | Exception (what : string)     (* any other class derived from Exception *)
  | BaseException (what : string).
      (* KeyboardInterrupt, SystemExit, ...: not derived from Exception *)

#[global] Instance exn_eq_dec : EqDecision exn.
Proof. solve_decision. Defined.

(** [isinstance(e, Exception)], the test of [except Exception]. *)
Definition is_Exception (e : exn) : bool :=
  match e with BaseException _ => false | _ => true end.

Inductive outcome (A : Type) :=
  | Return (a : A)
  | Raise (e : exn).
Arguments Return {A} a.
Arguments Raise {A} e.

Definition M (A : Type) : Type := World -> outcome A * World.

Definition ret {A} (a : A) : M A := fun w => (Return a, w).
Definition raise {A} (e : exn) : M A := fun w => (Raise e, w).
Definition bind {A B} (m : M A) (k : A -> M B) : M B :=
  fun w => match m w with
           | (Return a, w') => k a w'
           | (Raise e, w') => (Raise e, w')
           end.

(** [try: m  except <classes accepted by handles>: h]. *)
Definition try_except {A} (m : M A) (handles : exn -> bool) (h : exn -> M A) : M A :=
  fun w => match m w with
           | (Return a, w') => (Return a, w')
           | (Raise e, w') => if handles e then h e w' else (Raise e, w')
           end.

#[global] Instance M_ret : MRet M := @ret.
#[global] Instance M_bind : MBind M := fun A B k m => bind m k.

Definition get_world : M World := fun w => (Return w, w).
Definition self : M DashboardState := fun w => (Return (state w), w).
Definition modify (f : World -> World) : M unit := fun w => (Return tt, f w).

(** The world a call leaves behind, whether it returned or raised. *)
Definition after {A} (m : M A) (w : World) : World := snd (m w).
Definition result {A} (m : M A) (w : World) : outcome A := fst (m w).

(** ** Built-in operations on lists, dicts and queues *)

(** Python's [xs[start:]] for an integer [start]: a negative start counts
    from the end, and both ends are clamped to the list. *)
Definition slice_from {A} (start : Z) (xs : list A) : list A :=
  let n := Z.of_nat (length xs) in
  let i := if start <? 0 then Z.max (n + start) 0 else Z.min start n in
  drop (Z.to_nat i) xs.

(** Contents of an object; an identity that was never allocated reads as
    the empty object (no reachable world holds one, see [wf]). *)
Definition list_at (w : World) (l : loc) : list val := default [] (lists w !! l).
Definition dict_at (w : World) (l : loc) : list (string * val) :=
  default [] (dicts w !! l).
Definition queue_at (w : World) (q : loc) : list msg :=
  default [] (items <$> queues w !! q).

(** [[...]] / [list(xs)] / a slice: a new list object. *)
Definition new_list (xs : list val) : M loc :=
  fun w => let l := fresh (dom (lists w)) in
           (Return l, set_lists (<[l := xs]> (lists w)) w).

(** [{...}]: a new dict object; the entries keep insertion order. *)
Definition new_dict (kvs : list (string * val)) : M loc :=
  fun w => let l := fresh (dom (dicts w)) in
           (Return l, set_dicts (<[l := kvs]> (dicts w)) w).

(** [queue.Queue(maxsize=n)]: a new, empty queue. *)
Definition new_Queue (n : Z) : M loc :=
  fun w => let q := fresh (dom (queues w)) in
           (Return q, set_queues (<[q := mkQueue n []]> (queues w)) w).

(** [l.append(v)], in place. *)
Definition list_append (l : loc) (v : val) : M unit :=
  modify (fun w => set_lists (alter (fun xs => xs ++ [v]) l (lists w)) w).

(** The list a call returned, as it stands in the world the call left. *)
Definition returned_list (m : M loc) (w : World) : list val :=
  match m w with
  | (Return l, w') => list_at w' l
  | (Raise _, _) => []
  end.

(** [len(l)]. *)
Definition list_len (l : loc) : M Z :=
  fun w => (Return (Z.of_nat (length (list_at w l))), w).

(** [l[start:]]: a new list holding the slice. *)
Definition list_slice_from (l : loc) (start : Z) : M loc :=
  w ← get_world; new_list (slice_from start (list_at w l)).

(** [list(l)]: a new list with the same elements. *)
Definition list_copy (l : loc) : M loc :=
  w ← get_world; new_list (list_at w l).

(** Any operation that changes a list or a dict in place ([append],
    [pop], [sort], [d[k] = v], [update], ...): the object keeps its
    identity and gets new contents. *)
Definition list_mutate (l : loc) (f : list val -> list val) : M unit :=
  modify (fun w => set_lists (alter f l (lists w)) w).
Definition dict_mutate (d : loc) (f : list (string * val) -> list (string * val))
  : M unit :=
  modify (fun w => set_dicts (alter f d (dicts w)) w).

(** [Queue.full()]: [0 < maxsize <= qsize()]. *)
Definition queue_full (Q : Queue) : bool :=
  (0 <? maxsize Q) && (maxsize Q <=? Z.of_nat (length (items Q))).

(** Whether the queue registered as [q] is full in [w]. *)
Definition full_in (w : World) (q : loc) : bool :=
  match queues w !! q with Some Q => queue_full Q | None => false end.

(** A queue after one event was offered to it without waiting. *)
Definition deliver (m : msg) (Q : Queue) : Queue :=
  if queue_full Q then Q else mkQueue (maxsize Q) (items Q ++ [m]).

(** [q.put_nowait(item)]: raises [queue.Full] when the queue is bounded and
    full, and appends otherwise; it never waits. *)
Definition put_nowait (q : loc) (item : msg) : M unit :=
  fun w => match queues w !! q with
           | Some Q =>
               if queue_full Q then (Raise Full, w)
               else (Return tt,
                     set_queues (<[q := mkQueue (maxsize Q) (items Q ++ [item])]>
                                   (queues w)) w)
           | None => (Return tt, w)
           end.

(** [q.get(timeout=...)] once the wait is over: the oldest item, or
    [queue.Empty] when nothing arrived within the timeout. *)
Definition queue_get (q : loc) : M msg :=
  fun w => match queues w !! q with
           | Some (mkQueue n (item :: rest)) =>
               (Return item, set_queues (<[q := mkQueue n rest]> (queues w)) w)
           | _ => (Raise Empty, w)
           end.

(** [xs.remove(x)] on a list of object identities: drops the first
    occurrence, [None] (ValueError) when there is none. *)
Fixpoint list_remove (x : loc) (xs : list loc) : option (list loc) :=
  match xs with
  | [] => None
  | y :: r => if decide (x = y) then Some r
              else cons y <$> list_remove x r
  end.

(** ** class DashboardState *)

(** [self._subscribers.append(q)]. *)
Definition subscribers_append (q : loc) : M unit :=
  modify (fun w =>
    set_state (set_subscribers (_subscribers (state w) ++ [q]) (state w)) w).

(** [self._subscribers.remove(q)]. *)
Definition subscribers_remove (q : loc) : M unit :=
  fun w => match list_remove q (_subscribers (state w)) with
           | Some qs => (Return tt, set_state (set_subscribers qs (state w)) w)
           | None => (Raise ValueError, w)
           end.

(** The first loop of [_send_event]:
    [for q in self._subscribers: try: q.put_nowait(msg)
                                 except queue.Full: dead.append(q)]. *)
Fixpoint put_each (m : msg) (subs : list loc) (dead : list loc) : M (list loc) :=
  match subs with
  | [] => mret dead
  | q :: rest =>
      dead' ← try_except (put_nowait q m;; mret dead)
                         (fun e => bool_decide (e = Full))
                         (fun _ => mret (dead ++ [q]));
      put_each m rest dead'
  end.

(** The second loop: [for q in dead: self._subscribers.remove(q)]. *)
Fixpoint remove_each (dead : list loc) : M unit :=
  match dead with
  | [] => mret tt
  | q :: rest => subscribers_remove q;; remove_each rest
  end.

(** [_send_event] (lines 135-145): both loops run under the lock. *)
Definition _send_event (event_type data : string) : M unit :=
  let m := (event_type, data) in
  s ← self;
  dead ← put_each m (_subscribers s) [];
  remove_each dead.

(** [add_log] (lines 78-83): append, trim to the last
    [_max_log_lines] when longer, then publish the line. *)
Definition add_log (line : string) : M unit :=
  s ← self;
  list_append (_log_lines s) (VStr line);;
  n ← list_len (_log_lines s);
  (if _max_log_lines s <? n
   then l ← list_slice_from (_log_lines s) (- _max_log_lines s);
        modify (fun w => set_state (set_log_lines l (state w)) w)
   else mret tt);;
  _send_event "log" line.

(** [get_logs] (lines 85-87): [list(self._log_lines[-last_n:])]. *)
Definition get_logs (last_n : Z) : M loc :=
  s ← self;
  t ← list_slice_from (_log_lines s) (- last_n);
  list_copy t.

(** [to_dict] (lines 89-119): a dict literal over the 28 fields. *)
Definition to_dict : M loc :=
  s ← self;
  new_dict (map (fun a => (attr_name a, fields s a)) to_dict_keys).

(** [subscribe] (lines 121-125). *)
Definition subscribe : M loc :=
  q ← new_Queue 50;
  subscribers_append q;;
  mret q.

(** [unsubscribe] (lines 127-130):
    [if q in self._subscribers: self._subscribers.remove(q)]. *)
Definition unsubscribe (q : loc) : M unit :=
  s ← self;
  if bool_decide (q ∈ _subscribers s) then subscribers_remove q else mret tt.

(** The private attributes, which only the methods of the class assign. *)
Definition private_names : list string :=
  ["_log_lines"; "_max_log_lines"; "_lock"; "_subscribers"].

(** The methods of the class without a leading underscore. *)
Definition method_names : list string :=
  ["add_log"; "get_logs"; "to_dict"; "subscribe"; "unsubscribe"].

(** The names the producer may assign to without disturbing the class:
    no leading underscore, which leaves out the private attributes, the
    methods [_notify] and [_send_event] and every [__dunder__] attribute
    ([__class__], [__dict__], ...), and not the name of a method, which an
    instance attribute would shadow. *)
Definition is_public (name : string) : bool :=
  negb (String.prefix "_" name) && bool_decide (name ∉ method_names).

(** A name that code outside the class assigns to. *)
Record public_name := Public {
  name_of :> string;
  name_is_public : is_public name_of = true
}.

(** Assignment [state.<name> = v] by the producer, for a name that
    [is_public] admits: a dataclass field is rebound, any other such name
    is stored on the instance. *)
Definition setattr (name : public_name) (v : val) : M unit :=
  modify (fun w =>
    let s := state w in
    match attr_of_name name with
    | Some a => set_state (set_fields (<[a := v]> (fields s)) s) w
    | None => set_state (set_extra (<[name_of name := v]> (extra s)) s) w
    end).

(** The producer's idiom for changing several fields:
    [state.k1 = v1; state.k2 = v2; ...], in order. *)
Fixpoint assign_all (kvs : list (public_name * val)) : M unit :=
  match kvs with
  | [] => mret tt
  | (k, v) :: r => setattr k v;; assign_all r
  end.

(** [DashboardState()]: the field defaults; [config], [positions] and
    [_log_lines] come from their [default_factory] and are new, empty
    objects. *)
Definition field_default (a : attr) : val :=
  match a with
  | status => VStr "starting"
  | current_market | market_asset | market_duration | market_ends => VStr ""
  | markets_found | windows_scanned => VInt 0
  | up_best_ask | up_best_bid | down_best_ask | down_best_bid
  | combined_ask | up_depth | down_depth => VFloat 0%float
  | fee_bps => VInt 0
  | bankroll | deployed | available | realized_pnl | daily_spent => VFloat 0%float
  | exchange_balance => VNone
  | opportunities_seen | opportunities_traded => VInt 0
  | last_plan => VNone
  | fill_rate | api_stats => VStr ""
  | positions => VList 0%nat
  | config => VDict 0%nat
  end.

Definition init_world : World :=
  mkWorld (mkState field_default ∅ 1%nat 500 [])
          (<[1%nat := []]> {[0%nat := []]})
          {[0%nat := []]}
          ∅.

(** ** Serialisation, the log handler and the event stream *)

(** A str is represented by the bytes of its UTF-8 encoding; a surrogate
    code point U+D800..U+DFFF, which a Python str can hold and UTF-8 has
    no encoding for, by the three bytes [ED A0..BF 80..BF] that the same
    scheme would give it. *)
Definition utf8 (s : string) : list Byte.byte := list_byte_of_string s.

(** Whether a surrogate occurs: the byte [ED] followed by one of
    [A0..BF]. *)
Fixpoint has_surrogate (bs : list Byte.byte) : bool :=
  match bs with
  | [] => false
  | b1 :: rest =>
      match rest with
      | b2 :: _ =>
          Byte.eqb b1 Byte.xed
          && (160 <=? Byte.to_N b2)%N && (Byte.to_N b2 <=? 191)%N
      | [] => false
      end
      || has_surrogate rest
  end.

(** [s.encode()]: UTF-8, strict; a str that holds a surrogate is
    rejected. *)
Definition encode (s : string) : outcome (list Byte.byte) :=
  if has_surrogate (utf8 s) then Raise (Exception "UnicodeEncodeError")
  else Return (utf8 s).

(** An outcome as a call that leaves the world alone. *)
Definition lift {A} (o : outcome A) : M A := fun w => (o, w).

(** The text [json.dumps] returns with its default [ensure_ascii=True]:
    ASCII characters only. *)
Definition ascii_byte (b : Byte.byte) : Prop := (Byte.to_N b < 128)%N.

Definition is_ascii (s : string) : bool :=
  forallb (fun b => (Byte.to_N b <? 128)%N) (utf8 s).

Record json_text := Json {
  text_of :> string;
  text_is_ascii : is_ascii text_of = true
}.

Definition nl : string := String (ascii_of_nat 10) EmptyString.

(** [f"event: {event_type}\ndata: {data}\n\n"]. *)
Definition event_text (event_type data : string) : string :=
  "event: " +:+ event_type +:+ nl +:+ "data: " +:+ data +:+ nl +:+ nl.

(** The literal [b":keepalive\n\n"]. *)
Definition keepalive_bytes : list Byte.byte := utf8 (":keepalive" +:+ nl +:+ nl).

Section Handlers.
(** [json.dumps], [logging.LogRecord] and [logging.Handler.format] belong
    to the standard library; the first reads the objects it is given and
    any of them may raise. *)
Variable json_dumps : World -> val -> outcome json_text.
Variable LogRecord : Type.
Variable format : LogRecord -> outcome string.

Definition dumps (v : val) : M json_text := fun w => (json_dumps w v, w).

(** [_notify] (lines 132-133):
    [self._send_event("state", json.dumps(self.to_dict()))]. *)
Definition _notify : M unit :=
  d ← to_dict;
  data ← dumps (VDict d);
  _send_event "state" (text_of data).

(** [DashboardLogHandler.emit] (lines 165-170):
    [try: ... except Exception: pass].  [dash_state_add_log] is the
    method [self.dash_state.add_log] of the object the handler was made
    with; for the global instance it is [add_log]. *)
Definition emit (dash_state_add_log : string -> M unit) (record : LogRecord)
  : M unit :=
  try_except
    (m ← lift (format record);
     dash_state_add_log m)
    is_Exception
    (fun _ => mret tt).

(** [json.dumps({"state": state.to_dict(), "logs": state.get_logs(200)})]
    (lines 598-601). *)
Definition sse_init_data : M json_text :=
  snapshot ← to_dict;
  logs ← get_logs 200;
  payload ← new_dict [("state", VDict snapshot); ("logs", VList logs)];
  dumps (VDict payload).

(** [_serve_sse] (lines 590-619) up to the loop: the init frame, then
    [subscribe].  Returns the queue and the bytes given to [wfile.write];
    the response headers and a failing write are left out. *)
Definition sse_connect : M (loc * list Byte.byte) :=
  init_data ← sse_init_data;
  frame ← lift (encode (event_text "init" (text_of init_data)));
  q ← subscribe;
  mret (q, frame).

(** One pass through the body of [while True]: the bytes given to
    [wfile.write]. *)
Definition sse_iteration (q : loc) : M (list Byte.byte) :=
  try_except
    ('(event_type, data) ← queue_get q;
     lift (encode (event_text event_type data)))
    (fun e => bool_decide (e = Empty))
    (fun _ => mret keepalive_bytes).

(** ** Calls made on the shared instance

    A call by the producer, by a connection handler or by any holder of
    a reference to a list or dict.  Each runs to completion; its
    exception, if any, stays with its caller. *)
Inductive action :=
  | Assign (name : public_name) (v : val)  (* state.<name> = v *)
  | AddLog (line : string)                 (* state.add_log(line) *)
  | Notify                                 (* state._notify() *)
  | ToDict                                 (* state.to_dict() *)
  | GetLogs (last_n : Z)                   (* state.get_logs(n) *)
  | Subscribe                              (* state.subscribe() *)
  | Unsubscribe (q : loc)                  (* state.unsubscribe(q) *)
  | Drain (q : loc)                        (* q.get(timeout=15) *)
  | Emit (record : LogRecord)              (* handler.emit(record) *)
  | MutateList (l : loc) (f : list val -> list val)
                                           (* some_list.append(v), ... *)
  | MutateDict (d : loc) (f : list (string * val) -> list (string * val)).
                                           (* some_dict[k] = v, ... *)

Definition exec (a : action) (w : World) : World :=
  match a with
  | Assign name v => after (setattr name v) w
  | AddLog line => after (add_log line) w
  | Notify => after _notify w
  | ToDict => after to_dict w
  | GetLogs n => after (get_logs n) w
  | Subscribe => after subscribe w
  | Unsubscribe q => after (unsubscribe q) w
  | Drain q => after (queue_get q) w
  | Emit r => after (emit add_log r) w
  | MutateList l f => after (list_mutate l f) w
  | MutateDict d f => after (dict_mutate d f) w
  end.

Definition run (acts : list action) (w : World) : World :=
  fold_left (fun w a => exec a w) acts w.

(** The event a call hands to [_send_event], if it gets that far. *)
Definition published (a : action) (w : World) : list msg :=
  match a with
  | AddLog line => [("log", line)]
  | Notify => match result (d ← to_dict; dumps (VDict d)) w with
              | Return data => [("state", text_of data)]
              | Raise _ => []
              end
  | Emit r => match format r with
              | Return m => [("log", m)]
              | Raise _ => []
              end
  | _ => []
  end.

(** The event a call takes out of queue [q], if any. *)
Definition drained_by (q : loc) (a : action) (w : World) : list msg :=
  match a with
  | Drain q' => if bool_decide (q' = q)
                then match result (queue_get q) w with
                     | Return m => [m]
                     | Raise _ => []
                     end
                else []
  | _ => []
  end.

(** All events published, resp. taken out of [q], by a sequence of
    calls, in order. *)
Fixpoint trace (acts : list action) (w : World) : list msg :=
  match acts with
  | [] => []
  | a :: r => published a w ++ trace r (exec a w)
  end.

Fixpoint drained (q : loc) (acts : list action) (w : World) : list msg :=
  match acts with
  | [] => []
  | a :: r => drained_by q a w ++ drained q r (exec a w)
  end.

Definition unsubscribes (q : loc) (a : action) : bool :=
  match a with Unsubscribe q' => bool_decide (q' = q) | _ => false end.

(** The holder of [q] never stalls: whenever an event is published its
    queue has room, and it does not unsubscribe. *)
Fixpoint keeps_up (q : loc) (acts : list action) (w : World) : bool :=
  match acts with
  | [] => true
  | a :: r =>
      match published a w with [] => true | _ => negb (full_in w q) end
      && negb (unsubscribes q a)
      && keeps_up q r (exec a w)
  end.

(** Whether a call changes the list [l] in place. *)
Definition mutates_list (l : loc) (a : action) : bool :=
  match a with MutateList l' _ => bool_decide (l' = l) | _ => false end.

(** Whether a call changes the dict [d] in place. *)
Definition mutates_dict (d : loc) (a : action) : bool :=
  match a with MutateDict d' _ => bool_decide (d' = d) | _ => false end.

(** Worlds the class can be in after any calls on a new instance. *)
Inductive reachable : World -> Prop :=
  | reachable_init : reachable init_world
  | reachable_step w a : reachable w -> reachable (exec a w).
End Handlers.

Arguments Assign {LogRecord}.
Arguments AddLog {LogRecord}.
Arguments Notify {LogRecord}.
Arguments ToDict {LogRecord}.
Arguments GetLogs {LogRecord}.
Arguments Subscribe {LogRecord}.
Arguments Unsubscribe {LogRecord}.
Arguments Drain {LogRecord}.
Arguments Emit {LogRecord}.
Arguments MutateList {LogRecord}.
Arguments MutateDict {LogRecord}.
Arguments emit {LogRecord}.
Arguments exec json_dumps {LogRecord}.
Arguments run json_dumps {LogRecord}.
Arguments published json_dumps {LogRecord}.
Arguments drained_by {LogRecord}.
Arguments trace json_dumps {LogRecord}.
Arguments drained json_dumps {LogRecord}.
Arguments unsubscribes {LogRecord}.
Arguments keeps_up json_dumps {LogRecord}.
Arguments mutates_list {LogRecord}.
Arguments mutates_dict {LogRecord}.
Arguments reachable json_dumps {LogRecord}.
Arguments sse_init_data json_dumps : clear implicits.

(** ** Well-formed worlds *)

(** What every reachable world satisfies: the log buffer and the
    registered queues exist, and no queue is registered twice. *)
Record wf (w : World) : Prop := mk_wf {
  wf_log : _log_lines (state w) ∈ dom (lists w);
  wf_subs : ∀ q, q ∈ _subscribers (state w) → q ∈ dom (queues w);
  wf_nodup : NoDup (_subscribers (state w))
}.

(** The lines held by the log buffer, oldest first. *)
Definition log_buffer (w : World) : list val := list_at w (_log_lines (state w)).

(** The last [n] elements of a list, oldest first (the whole list when it
    is shorter). *)
Definition lastn {A} (n : nat) (xs : list A) : list A :=
  drop (length xs - n)%nat xs.

(** The world after the calls [add_log l1; ...; add_log ln]. *)
Definition add_logs (ls : list string) (w : World) : World :=
  fold_left (fun w l => after (add_log l) w) ls w.

(** The world between the two critical sections of [add_log]: the line is
    appended and the buffer trimmed, the event is not sent yet. *)
Definition log_appended (line : string) (w : World) : World :=
  let s := state w in
  let lists1 := alter (fun xs => xs ++ [VStr line]) (_log_lines s) (lists w) in
  let w1 := set_lists lists1 w in
  if _max_log_lines s <? Z.of_nat (length (list_at w1 (_log_lines s)))
  then let l := fresh (dom lists1) in
       set_state (set_log_lines l s)
         (set_lists (<[l := slice_from (- _max_log_lines s)
                                       (list_at w1 (_log_lines s))]> lists1) w1)
  else w1.

(** The queues and the registry: all that [_send_event] reads or writes. *)
Definition hub (w : World) : gmap loc Queue * list loc :=
  (queues w, _subscribers (state w)).

(** The value the assignments [kvs] leave under the name [k]: that of the
    last one that binds [k], if any. *)
Fixpoint assigned (k : string) (kvs : list (public_name * val)) : option val :=
  match kvs with
  | [] => None
  | (k', v) :: r =>
      match assigned k r with
      | Some v' => Some v'
      | None => if String.eqb k' k then Some v else None
      end
  end.

(** What a value shows to a reader that follows references, such as
    [json.dumps]: the tree of contents down to [depth] levels of lists and
    dicts. *)
Unset Elimination Schemes.
Inductive tree :=
  | TNone
  | TBool (b : bool)
  | TInt (z : Z)
  | TFloat (f : float)
  | TStr (s : string)
  | TList (xs : list tree)
  | TDict (kvs : list (string * tree))
  | TDeeper.
Set Elimination Schemes.

Fixpoint contents (depth : nat) (w : World) (v : val) : tree :=
  match v, depth with
  | VNone, _ => TNone
  | VBool b, _ => TBool b
  | VInt z, _ => TInt z
  | VFloat f, _ => TFloat f
  | VStr s, _ => TStr s
  | VList l, S d => TList (map (contents d w) (list_at w l))
  | VDict l, S d =>
      TDict (map (fun kv => (kv.1, contents d w kv.2)) (dict_at w l))
  | VList _, O | VDict _, O => TDeeper
  end.

(** All events waiting in any queue were published by [add_log] or
    [_notify]. *)
Definition kinds_ok (w : World) : Prop :=
  ∀ q Q m, queues w !! q = Some Q -> m ∈ items Q ->
           m.1 = "state" ∨ m.1 = "log".

(** The keepalive frame as the specification words it, with a space after
    the colon. *)
Definition spec_keepalive : list Byte.byte := utf8 (": keepalive" +:+ nl +:+ nl).

(** What the specification's [<json>] asks of the data of a frame, at the
    least: a JSON text begins with the first character of a JSON value,
    which is one of [{], [[], the double quote, [-], a digit, or the [t],
    [f] or [n] of a literal. *)
Definition spec_json_first (s : string) : bool :=
  match s with
  | EmptyString => false
  | String c _ =>
      bool_decide (c ∈ list_ascii_of_string "{[-0123456789tfn")
      || Ascii.eqb c (ascii_of_nat 34)
  end.

(** ** Concrete worlds used to exercise the theorems *)

(** A serialiser and a formatter to run the handlers with. *)
Definition empty_object : json_text := Json "{}" eq_refl.
Definition const_dumps : World -> val -> outcome json_text :=
  fun _ _ => Return empty_object.
Definition id_format : string -> outcome string :=
  fun line => Return line.

(** The fields the producer sets in the examples: a dataclass field and a
    name that is none. *)
Definition scanning_fields : list (public_name * val) :=
  [(Public "status" eq_refl, VStr "scanning");
   (Public "note" eq_refl, VInt 1)].

(** A new instance with one connected viewer (queue 0). *)
Definition viewer_world : World := after subscribe init_world.

(** A new instance after [add_log("a"); add_log("b")]. *)
Definition two_lines_world : World := add_logs ["a"; "b"] init_world.

(** A snapshot is taken, then the producer runs
    [state.positions.append({"market": "BTC"})]. *)
Definition snapshot_world : World := after to_dict init_world.
Definition position_added_world : World :=
  after (p ← new_dict [("market", VStr "BTC")]; list_append 0%nat (VDict p))
        snapshot_world.

(** Viewer 0 connected and never drained 50 log events; viewer 1 connected
    after them. *)
Definition crowded_world : World :=
  run const_dumps id_format
      (Subscribe :: replicate 50 (AddLog "tick") ++ [Subscribe]) init_world.

(** What happens after a viewer connected: two log lines and a state
    event are published, and the viewer takes one event out in between. *)
Definition session : list (action string) :=
  [AddLog "a"; Notify; Drain 0%nat; AddLog "b"].

(** Later activity around a snapshot: a field is rebound, a line is
    logged, another snapshot is sent. *)
Definition later_calls : list (action string) :=
  [Assign (Public "positions" eq_refl) (VList 7%nat); AddLog "x"; Notify].

(** ** The connection of a viewer: [DashboardHandler._serve_sse] *)

(** [self.wfile] as the handler sees it: the chunks written so far, and
    what the connection has in store for the coming writes, [None] when
    the write and its flush succeed and [Some e] when one of them raises
    [e].  Once [fates] is used up, every write succeeds. *)
Record wfile := mk_wfile {
  written : list (list Byte.byte);
  fates : list (option exn)
}.

(** [self.wfile.write(chunk); self.wfile.flush()]. *)
Definition wfile_send (chunk : list Byte.byte) (f : wfile) : outcome unit * wfile :=
  match fates f with
  | Some e :: rest => (Raise e, mk_wfile (written f) rest)
  | None :: rest => (Return tt, mk_wfile (written f ++ [chunk]) rest)
  | [] => (Return tt, mk_wfile (written f ++ [chunk]) [])
  end.

(** How the streaming loop stands when the script of the other threads is
    used up, or how it ended: [while True] ends by an exception only. *)
Inductive ending :=
  | Streaming
  | Ended (e : exn).

(** How [_serve_sse] stands or returned. *)
Inductive served :=
  | StillStreaming
  | Finished (o : outcome unit).

(** [self.wfile.write(text.encode()); self.wfile.flush()]. *)
Definition send_text (text : string) (f : wfile) : outcome unit * wfile :=
  match encode text with
  | Return chunk => wfile_send chunk f
  | Raise e => (Raise e, f)
  end.

(** What the loop writes for an event taken out of the queue, or for a
    timeout. *)
Definition render (item : option msg) : list Byte.byte :=
  match item with
  | Some (event_type, data) => utf8 (event_text event_type data)
  | None => keepalive_bytes
  end.

Section Connection.
(** [issubclass], on the names of exception classes, is the interpreter's. *)
Variable subclass : string -> string -> bool.
Variable json_dumps : World -> val -> outcome json_text.
Variable LogRecord : Type.
Variable format : LogRecord -> outcome string.

(** [isinstance(e, cls)] for a class [cls] below [Exception]. *)
Definition isinstance (e : exn) (cls : string) : bool :=
  match e with
  | Exception name => subclass name cls
  | _ => false
  end.

(** [except (BrokenPipeError, ConnectionResetError, OSError)]. *)
Definition connection_lost (e : exn) : bool :=
  isinstance e "BrokenPipeError" || isinstance e "ConnectionResetError"
  || isinstance e "OSError".

(** The loop of [_serve_sse] (lines 607-615).  Each element of [rounds]
    is one pass: the calls the other threads make while this one waits in
    [q.get(timeout=15)], then the [get] and the write. *)
Fixpoint sse_loop (q : loc) (rounds : list (list (action LogRecord)))
    (w : World) (f : wfile) : ending * World * wfile :=
  match rounds with
  | [] => (Streaming, w, f)
  | others :: rest =>
      let w1 := run json_dumps format others w in
      match queue_get q w1 with
      | (Return (event_type, data), w2) =>
          match send_text (event_text event_type data) f with
          | (Return _, f1) => sse_loop q rest w2 f1
          | (Raise Empty, f1) =>
              (* except queue.Empty *)
              match wfile_send keepalive_bytes f1 with
              | (Return _, f2) => sse_loop q rest w2 f2
              | (Raise e, f2) => (Ended e, w2, f2)
              end
          | (Raise e, f1) => (Ended e, w2, f1)
          end
      | (Raise Empty, w2) =>
          (* except queue.Empty *)
          match wfile_send keepalive_bytes f with
          | (Return _, f1) => sse_loop q rest w2 f1
          | (Raise e, f1) => (Ended e, w2, f1)
          end
      | (Raise e, w2) => (Ended e, w2, f)
      end
  end.

(** [_serve_sse] (lines 590-619), the response headers taken as sent.
    [gap] is what the other threads call between the init frame and
    [subscribe()]. *)
Definition _serve_sse (gap : list (action LogRecord))
    (rounds : list (list (action LogRecord))) (w : World) (f : wfile)
  : served * World * wfile :=
  match sse_init_data json_dumps w with
  | (Raise e, w0) => (Finished (Raise e), w0, f)
  | (Return init_data, w0) =>
      match send_text (event_text "init" (text_of init_data)) f with
      | (Raise e, f1) => (Finished (Raise e), w0, f1)
      | (Return _, f1) =>
          match subscribe (run json_dumps format gap w0) with
          | (Raise e, w1) => (Finished (Raise e), w1, f1)
          | (Return q, w1) =>
              match sse_loop q rounds w1 f1 with
              | (Streaming, w2, f2) => (StillStreaming, w2, f2)
              | (Ended e, w2, f2) =>
                  (* except (...): pass   finally: state.unsubscribe(q) *)
                  (Finished (if connection_lost e then Return tt else Raise e),
                   after (unsubscribe q) w2, f2)
              end
          end
      end
  end.

(** The calls of all threads during the first [k] passes of the loop, in
    order: the handler's part of each pass is its [get]. *)
Definition schedule (q : loc) (rounds : list (list (action LogRecord)))
  : list (action LogRecord) :=
  concat (map (fun others => others ++ [Drain q]) rounds).

(** Whether a call takes an event out of queue [q]. *)
Definition drains (q : loc) (a : action LogRecord) : bool :=
  match a with Drain q' => bool_decide (q' = q) | _ => false end.

(** Only the handler reads its queue. *)
Definition private_queue (q : loc) (rounds : list (list (action LogRecord)))
  : bool :=
  forallb (forallb (fun a => negb (drains q a))) rounds.
End Connection.

Arguments schedule {LogRecord}.
Arguments drains {LogRecord}.
Arguments private_queue {LogRecord}.
Arguments sse_loop json_dumps {LogRecord}.
Arguments _serve_sse subclass json_dumps {LogRecord}.

(** A socket never raises [queue.Empty]. *)
Definition no_Empty (f : wfile) : Prop :=
  Forall (fun o => o ≠ Some Empty) (fates f).

(** ** Further notions used by the properties *)

(** Every queue object was made by [subscribe]: capacity 50, and never
    more than 50 events waiting. *)
Definition capacity_ok (w : World) : Prop :=
  ∀ q Q, queues w !! q = Some Q ->
         maxsize Q = 50 ∧ (length (items Q) <= 50)%nat.

(** [d.get(k)] on the entries of a dict: the value under the key [k]. *)
Fixpoint dict_get (k : string) (kvs : list (string * val)) : option val :=
  match kvs with
  | [] => None
  | (k', v) :: r => if String.eqb k' k then Some v else dict_get k r
  end.

(** The events [add_log] publishes for the lines [ls]. *)
Definition log_events (ls : list string) : list msg :=
  map (fun l => ("log", l)) ls.

(** ** The page's log panel: [addLogLine] (JavaScript, lines 498-510) *)

(** A JavaScript string: its UTF-16 code units. *)
Definition jsstring := list N.

(** A literal of the script (the script's literals are ASCII). *)
Definition js (s : string) : jsstring :=
  map N_of_ascii (list_ascii_of_string s).

Fixpoint starts_with (pat s : jsstring) : bool :=
  match pat, s with
  | [], _ => true
  | p :: pat', c :: s' => N.eqb p c && starts_with pat' s'
  | _ :: _, [] => false
  end.

(** [s.includes(pat)]. *)
Fixpoint includes (s pat : jsstring) : bool :=
  starts_with pat s
  || match s with
     | [] => false
     | _ :: s' => includes s' pat
     end.

(** A [div] of the log container, as far as the script sets it. *)
Record div := mk_div { className : jsstring; textContent : jsstring }.

(** The element [addLogLine] makes for a line (lines 500-505). *)
Definition log_div (line : jsstring) : div :=
  let className := js "log-line" in
  let className :=
    if includes line (js "[ERROR]") then className ++ js " error"
    else if includes line (js "[WARNING]") then className ++ js " warning"
    else if includes line (js "ARB FOUND") || includes line (js "OPPORTUNITY")
    then className ++ js " arb"
    else className in
  mk_div className line.

(** [while (c.children.length > 500) c.removeChild(c.firstChild);]
    each pass removes one child, so [length c] passes are enough. *)
Fixpoint remove_while_over_500 (passes : nat) (c : list div) : list div :=
  match passes with
  | O => c
  | S passes' =>
      if (500 <? length c)%nat then remove_while_over_500 passes' (tail c)
      else c
  end.

(** [addLogLine(line)] on the children of [logContainer]; the scroll
    position is layout and not part of the model. *)
Definition addLogLine (line : jsstring) (c : list div) : list div :=
  let c := c ++ [log_div line] in
  remove_while_over_500 (length c) c.

(** [lines.forEach(addLogLine)], and one [log] event after the other. *)
Definition addLogLines (lines : list jsstring) (c : list div) : list div :=
  fold_left (fun c line => addLogLine line c) lines c.


(** ** Concrete connections used to exercise the theorems *)

(** The built-in exception classes below [Exception] and the base of
    each (the hierarchy of the library reference); a class that is defined
    elsewhere has no base here. *)
Definition builtin_base (name : string) : option string :=
  if bool_decide (name ∈ ["BrokenPipeError"; "ConnectionAbortedError";
                          "ConnectionRefusedError"; "ConnectionResetError"])
  then Some "ConnectionError"
  else if bool_decide (name ∈ ["BlockingIOError"; "ChildProcessError";
                               "ConnectionError"; "FileExistsError";
                               "FileNotFoundError"; "InterruptedError";
                               "IsADirectoryError"; "NotADirectoryError";
                               "PermissionError"; "ProcessLookupError";
                               "TimeoutError"])
  then Some "OSError"
  else if bool_decide (name ∈ ["UnicodeDecodeError"; "UnicodeEncodeError";
                               "UnicodeTranslateError"])
  then Some "UnicodeError"
  else if String.eqb name "UnicodeError" then Some "ValueError"
  else if bool_decide (name ∈ ["FloatingPointError"; "OverflowError";
                               "ZeroDivisionError"])
  then Some "ArithmeticError"
  else if String.eqb name "ModuleNotFoundError" then Some "ImportError"
  else if bool_decide (name ∈ ["IndexError"; "KeyError"])
  then Some "LookupError"
  else if String.eqb name "UnboundLocalError" then Some "NameError"
  else if bool_decide (name ∈ ["NotImplementedError";
                               "PythonFinalizationError"; "RecursionError"])
  then Some "RuntimeError"
  else if String.eqb name "TabError" then Some "IndentationError"
  else if String.eqb name "IndentationError" then Some "SyntaxError"
  else if bool_decide (name ∈ ["BytesWarning"; "DeprecationWarning";
                               "EncodingWarning"; "FutureWarning";
                               "ImportWarning"; "PendingDeprecationWarning";
                               "ResourceWarning"; "RuntimeWarning";
                               "SyntaxWarning"; "UnicodeWarning";
                               "UserWarning"])
  then Some "Warning"
  else if bool_decide (name ∈ ["ArithmeticError"; "AssertionError";
                               "AttributeError"; "BufferError"; "EOFError";
                               "ExceptionGroup"; "ImportError";
                               "LookupError"; "MemoryError"; "NameError";
                               "OSError"; "ReferenceError"; "RuntimeError";
                               "StopAsyncIteration"; "StopIteration";
                               "SyntaxError"; "SystemError"; "TypeError";
                               "ValueError"; "Warning"])
  then Some "Exception"
  else None.

(** [issubclass(name, cls)] by walking up from [name]; the built-in
    hierarchy is four classes deep below [Exception]. *)
Fixpoint subclass_within (depth : nat) (name cls : string) : bool :=
  String.eqb name cls
  || match depth with
     | O => false
     | S depth' =>
         match builtin_base name with
         | Some base => subclass_within depth' base cls
         | None => false
         end
     end.

Definition builtin_subclass (name cls : string) : bool :=
  subclass_within 4 name cls.

(** [DashboardState(_max_log_lines=0)]. *)
Definition unbounded_world : World :=
  set_state (mkState field_default ∅ 1%nat 0 []) init_world.

(** A serialiser that rejects every value. *)
Definition failing_dumps : World -> val -> outcome json_text :=
  fun _ _ => Raise (Exception "TypeError").

(** A connection on which the third write finds the pipe broken. *)
Definition breaking_wfile : wfile :=
  mk_wfile [] [None; None; Some (Exception "BrokenPipeError")].

(** A connection that is closed already. *)
Definition closed_wfile : wfile :=
  mk_wfile [] [Some (Exception "BrokenPipeError")].

(** A connection whose writes all succeed. *)
Definition healthy_wfile : wfile := mk_wfile [] [].

(** A log line that holds the surrogate U+D800, as a file name decoded
    with [surrogateescape] may. *)
Definition surrogate_line : string :=
  String (ascii_of_nat 237)
    (String (ascii_of_nat 160) (String (ascii_of_nat 128) EmptyString)).

(** While the handler waits: a line is logged in the first pass, nothing
    happens in the second, a state event is sent in the third. *)
Definition three_rounds : list (list (action string)) :=
  [[AddLog "a"]; []; [Notify]].

(** * Properties *)

Ltac unfold_M :=
  unfold after, result, mbind, M_bind, bind, mret, M_ret, ret, raise,
    self, get_world, modify, try_except in *.

(** ** Slices *)

Lemma slice_from_neg {A} (k : Z) (xs : list A) :
  0 < k -> slice_from (- k) xs = lastn (Z.to_nat k) xs.
Proof.
  intros Hk. unfold slice_from, lastn.
  destruct (Z.ltb_spec (- k) 0) as [_|?]; [|lia].
  f_equal. lia.
Qed.

Lemma slice_from_0 {A} (xs : list A) : slice_from (- 0) xs = xs.
Proof. unfold slice_from. simpl. rewrite Z.min_l by lia. reflexivity. Qed.

Lemma lastn_length {A} (n : nat) (xs : list A) :
  length (lastn n xs) = Nat.min n (length xs).
Proof. unfold lastn. rewrite length_drop. lia. Qed.

Lemma lastn_all {A} (n : nat) (xs : list A) :
  (length xs <= n)%nat -> lastn n xs = xs.
Proof.
  intros H. unfold lastn. replace (length xs - n)%nat with 0%nat by lia.
  reflexivity.
Qed.

Lemma lastn_min {A} (n : nat) (xs : list A) :
  lastn (Nat.min n (length xs)) xs = lastn n xs.
Proof. unfold lastn. f_equal. lia. Qed.

Lemma lastn_app {A} (n : nat) (xs ys : list A) :
  (length ys <= n)%nat ->
  lastn n (xs ++ ys) = lastn (n - length ys) xs ++ ys.
Proof.
  intros H. unfold lastn. rewrite length_app.
  rewrite drop_app_le by lia.
  do 2 f_equal. lia.
Qed.

(** ** Encoding *)

Lemma utf8_app s1 s2 : utf8 (s1 +:+ s2) = utf8 s1 ++ utf8 s2.
Proof.
  unfold utf8, list_byte_of_string.
  induction s1 as [|c s1 IH]; [done|].
  change (byte_of_ascii c
          :: map byte_of_ascii (list_ascii_of_string (s1 +:+ s2))
          = byte_of_ascii c
            :: map byte_of_ascii (list_ascii_of_string s1)
               ++ map byte_of_ascii (list_ascii_of_string s2)).
  by rewrite IH.
Qed.

Lemma is_ascii_Forall s : is_ascii s = true <-> Forall ascii_byte (utf8 s).
Proof.
  unfold is_ascii. rewrite forallb_forall, Forall_forall.
  split; intros H b Hb.
  - apply N.ltb_lt, H. by apply list_elem_of_In.
  - apply N.ltb_lt, H. by apply list_elem_of_In.
Qed.

Lemma ascii_byte_not_lead b : ascii_byte b -> Byte.eqb b Byte.xed = false.
Proof.
  intros Hb. destruct (Byte.eqb b Byte.xed) eqn:He; [|done].
  apply Byte.byte_dec_bl in He. subst b. vm_compute in Hb. discriminate Hb.
Qed.

Lemma ascii_byte_not_trail b :
  ascii_byte b -> (160 <=? Byte.to_N b)%N = false.
Proof. unfold ascii_byte. intros Hb. apply N.leb_gt. lia. Qed.

Lemma has_surrogate_ascii bs : Forall ascii_byte bs -> has_surrogate bs = false.
Proof.
  induction 1 as [|b bs Hb _ IH]; [done|].
  cbn [has_surrogate]. rewrite IH, (ascii_byte_not_lead b Hb).
  by destruct bs.
Qed.

Lemma has_surrogate_ascii_app bs cs :
  Forall ascii_byte bs -> has_surrogate (bs ++ cs) = has_surrogate cs.
Proof.
  induction 1 as [|b bs Hb _ IH]; [done|].
  cbn [app has_surrogate]. rewrite IH, (ascii_byte_not_lead b Hb).
  by destruct (bs ++ cs).
Qed.

Lemma has_surrogate_app_ascii bs cs :
  Forall ascii_byte cs -> has_surrogate (bs ++ cs) = has_surrogate bs.
Proof.
  intros Hcs. induction bs as [|b bs IH].
  - by apply has_surrogate_ascii.
  - cbn [app has_surrogate]. rewrite IH. f_equal.
    destruct bs as [|b2 bs]; [|done]. cbn [app].
    destruct Hcs as [|c cs Hc _]; [done|].
    rewrite (ascii_byte_not_trail c Hc). by rewrite andb_false_r.
Qed.

(** The text of a frame can be encoded when its kind and its data can. *)
Lemma event_text_surrogate kind data :
  is_ascii kind = true ->
  has_surrogate (utf8 (event_text kind data)) = has_surrogate (utf8 data).
Proof.
  intros Hk. apply is_ascii_Forall in Hk. unfold event_text.
  rewrite !utf8_app.
  assert (Forall ascii_byte (utf8 "event: ")) as H1
    by (by apply is_ascii_Forall).
  assert (Forall ascii_byte (utf8 nl)) as H2 by (by apply is_ascii_Forall).
  assert (Forall ascii_byte (utf8 "data: ")) as H3
    by (by apply is_ascii_Forall).
  rewrite (has_surrogate_ascii_app _ _ H1), (has_surrogate_ascii_app _ _ Hk).
  rewrite (has_surrogate_ascii_app _ _ H2), (has_surrogate_ascii_app _ _ H3).
  apply has_surrogate_app_ascii. rewrite <- utf8_app.
  by apply is_ascii_Forall.
Qed.

Lemma encode_event_text kind data :
  is_ascii kind = true ->
  encode (event_text kind data)
  = if has_surrogate (utf8 data)
    then Raise (Exception "UnicodeEncodeError")
    else Return (utf8 (event_text kind data)).
Proof. intros Hk. unfold encode. by rewrite event_text_surrogate. Qed.

Lemma encode_json_event kind (data : json_text) :
  is_ascii kind = true ->
  encode (event_text kind data) = Return (utf8 (event_text kind data)).
Proof.
  intros Hk. rewrite encode_event_text by done.
  rewrite has_surrogate_ascii; [done|].
  apply is_ascii_Forall, text_is_ascii.
Qed.

(** ** Shape of the world after a publish *)

Lemma put_nowait_shape q m w :
  ∃ qs, snd (put_nowait q m w) = set_queues qs w.
Proof.
  unfold put_nowait. destruct (queues w !! q) as [Q|]; simpl.
  - destruct (queue_full Q); simpl; eauto.
    exists (queues w). by destruct w.
  - exists (queues w). by destruct w.
Qed.

Lemma put_each_shape m subs : ∀ dead w,
  ∃ qs, snd (put_each m subs dead w) = set_queues qs w.
Proof.
  induction subs as [|q rest IH]; intros dead w; simpl.
  - exists (queues w). by destruct w.
  - unfold_M.
    destruct (put_nowait_shape q m w) as [qs Hqs].
    destruct (put_nowait q m w) as [[[]|e] w1]; simpl in Hqs; subst w1.
    + destruct (IH dead (set_queues qs w)) as [qs' ->]. eauto.
    + case_bool_decide; simpl.
      * destruct (IH (dead ++ [q]) (set_queues qs w)) as [qs' ->]. eauto.
      * eauto.
Qed.

Lemma remove_each_shape dead : ∀ w,
  ∃ subs, snd (remove_each dead w) = set_state (set_subscribers subs (state w)) w.
Proof.
  induction dead as [|q rest IH]; intros w; simpl.
  - exists (_subscribers (state w)). by destruct w as [[] ? ? ?].
  - unfold_M. unfold subscribers_remove.
    destruct (list_remove q (_subscribers (state w))) as [qs|]; simpl.
    + destruct (IH (set_state (set_subscribers qs (state w)) w)) as [subs ->].
      eauto.
    + exists (_subscribers (state w)). by destruct w as [[] ? ? ?].
Qed.

Lemma send_event_shape t d w :
  ∃ qs subs, after (_send_event t d) w
             = set_state (set_subscribers subs (state w)) (set_queues qs w).
Proof.
  unfold _send_event. unfold_M.
  destruct (put_each_shape (t, d) (_subscribers (state w)) [] w) as [qs Hqs].
  destruct (put_each (t, d) (_subscribers (state w)) [] w) as [[dead|e] w1];
    simpl in Hqs; subst w1.
  - destruct (remove_each_shape dead (set_queues qs w)) as [subs ->]. eauto.
  - simpl. exists qs, (_subscribers (state w)). by destruct w as [[] ? ? ?].
Qed.

(** ** The two loops of [_send_event] *)

Lemma filter_ext_in {A} (P1 P2 : A -> Prop)
    `{!∀ x, Decision (P1 x), !∀ x, Decision (P2 x)} (l : list A) :
  (∀ x, x ∈ l -> (P1 x <-> P2 x)) -> filter P1 l = filter P2 l.
Proof.
  intros Hiff. induction l as [|a l IH]; [done|].
  rewrite !filter_cons.
  rewrite IH by (intros x Hx; apply Hiff, elem_of_cons; auto).
  apply decide_ext, Hiff, elem_of_cons. auto.
Qed.

Lemma filter_all {A} (P : A -> Prop) `{!∀ x, Decision (P x)} (l : list A) :
  (∀ x, x ∈ l -> P x) -> filter P l = l.
Proof.
  intros HP. induction l as [|a l IH]; [done|].
  rewrite filter_cons_True by (apply HP, elem_of_cons; auto).
  f_equal. apply IH. intros x Hx. apply HP, elem_of_cons. auto.
Qed.

Lemma list_remove_NoDup q (xs : list loc) :
  NoDup xs -> q ∈ xs -> list_remove q xs = Some (filter (fun x => x ≠ q) xs).
Proof.
  induction xs as [|y r IH]; intros Hnd Hin; simpl.
  - by apply elem_of_nil in Hin.
  - apply NoDup_cons in Hnd as [Hy Hr].
    destruct (decide (q = y)) as [->|Hne].
    + rewrite filter_cons_False by naive_solver.
      f_equal. symmetry. apply filter_all.
      intros x Hx ->. done.
    + rewrite filter_cons_True by naive_solver.
      apply elem_of_cons in Hin as [?|Hin]; [done|].
      by rewrite IH.
Qed.

Lemma put_each_spec m subs :
  NoDup subs -> ∀ dead w,
  ∃ qs, put_each m subs dead w
        = (Return (dead ++ filter (fun q => full_in w q) subs), set_queues qs w)
     ∧ ∀ q, qs !! q = if bool_decide (q ∈ subs)
                       then deliver m <$> queues w !! q
                       else queues w !! q.
Proof.
  induction subs as [|q rest IH]; intros Hnd dead w.
  - exists (queues w). simpl. unfold_M. rewrite app_nil_r.
    split; [by destruct w|]. done.
  - apply NoDup_cons in Hnd as [Hq Hrest].
    simpl. unfold_M. unfold put_nowait.
    destruct (queues w !! q) as [Q|] eqn:HQ; [destruct (queue_full Q) eqn:Hfull|];
      simpl.
    + (* full: the queue joins [dead] *)
      destruct (IH Hrest (dead ++ [q]) w) as (qs & -> & Hqs).
      exists qs. split.
      * rewrite filter_cons_True by (unfold full_in; rewrite HQ, Hfull; done).
        by rewrite <- app_assoc.
      * intros q'. rewrite Hqs. destruct (decide (q' = q)) as [->|Hne].
        -- rewrite bool_decide_eq_false_2 by done.
           rewrite bool_decide_eq_true_2 by set_solver.
           rewrite HQ. simpl. unfold deliver. by rewrite Hfull.
        -- rewrite (bool_decide_ext (q' ∈ q :: rest) (q' ∈ rest))
             by (rewrite elem_of_cons; tauto).
           done.
    + (* room: the event is appended *)
      set (w1 := set_queues _ w).
      destruct (IH Hrest dead w1) as (qs & -> & Hqs).
      exists qs. split.
      * rewrite filter_cons_False
          by (unfold full_in; rewrite HQ, Hfull; intros H; exact H).
        replace (filter (fun q0 => full_in w1 q0) rest)
          with (filter (fun q0 => full_in w q0) rest); [done|].
        apply filter_ext_in.
        intros q' Hq'. unfold full_in, w1. simpl.
        rewrite lookup_insert_ne by (intros ->; done). done.
      * intros q'. rewrite Hqs. unfold w1. simpl.
        destruct (decide (q' = q)) as [->|Hne].
        -- rewrite bool_decide_eq_false_2 by done.
           rewrite bool_decide_eq_true_2 by set_solver.
           rewrite lookup_insert_eq, HQ. simpl. unfold deliver. by rewrite Hfull.
        -- rewrite lookup_insert_ne by done.
           rewrite (bool_decide_ext (q' ∈ q :: rest) (q' ∈ rest))
             by (rewrite elem_of_cons; tauto).
           done.
    + (* no such queue object: nothing happens *)
      destruct (IH Hrest dead w) as (qs & -> & Hqs).
      exists qs. split.
      * rewrite filter_cons_False
          by (unfold full_in; rewrite HQ; intros H; exact H).
        done.
      * intros q'. rewrite Hqs. destruct (decide (q' = q)) as [->|Hne].
        -- rewrite bool_decide_eq_false_2 by done.
           rewrite bool_decide_eq_true_2 by set_solver. by rewrite HQ.
        -- rewrite (bool_decide_ext (q' ∈ q :: rest) (q' ∈ rest))
             by (rewrite elem_of_cons; tauto).
           done.
Qed.

Lemma remove_each_spec dead : ∀ w,
  NoDup (_subscribers (state w)) -> NoDup dead ->
  (∀ q, q ∈ dead -> q ∈ _subscribers (state w)) ->
  remove_each dead w
  = (Return tt,
     set_state (set_subscribers (filter (fun q => q ∉ dead) (_subscribers (state w)))
                                (state w)) w).
Proof.
  induction dead as [|q rest IH]; intros w Hnd Hdead Hsub; simpl.
  - unfold_M. f_equal. rewrite filter_all.
    + by destruct w as [[] ? ? ?].
    + intros ? _. apply not_elem_of_nil.
  - apply NoDup_cons in Hdead as [Hq Hrest].
    unfold_M. unfold subscribers_remove.
    rewrite list_remove_NoDup by (auto; apply Hsub, elem_of_cons; auto). simpl.
    rewrite IH; simpl.
    + replace (filter (fun x => x ∉ q :: rest) (_subscribers (state w)))
        with (filter (fun x => x ∉ rest)
                (filter (fun x => x ≠ q) (_subscribers (state w)))); [done|].
      rewrite list_filter_filter. apply list_filter_iff.
      intros x. rewrite not_elem_of_cons. tauto.
    + by apply NoDup_filter.
    + done.
    + intros x Hx. apply list_elem_of_filter. split; [by intros ->|].
      apply Hsub, elem_of_cons. auto.
Qed.

Lemma send_event_run t d w :
  NoDup (_subscribers (state w)) ->
  ∃ qs, _send_event t d w
        = (Return tt,
           set_state (set_subscribers
                        (filter (fun q => ¬ full_in w q) (_subscribers (state w)))
                        (state w))
                     (set_queues qs w))
     ∧ ∀ q, qs !! q = if bool_decide (q ∈ _subscribers (state w))
                       then deliver (t, d) <$> queues w !! q
                       else queues w !! q.
Proof.
  intros Hnd. unfold _send_event. unfold_M.
  destruct (put_each_spec (t, d) _ Hnd [] w) as (qs & -> & Hqs).
  exists qs. split; [|done]. simpl.
  rewrite remove_each_spec; simpl.
  - replace (filter (fun q => q ∉ filter (fun q0 => full_in w q0) (_subscribers (state w)))
                    (_subscribers (state w)))
      with (filter (fun q => ¬ full_in w q) (_subscribers (state w))); [done|].
    apply filter_ext_in. intros q Hq. rewrite list_elem_of_filter. tauto.
  - done.
  - by apply NoDup_filter.
  - intros q Hq. apply list_elem_of_filter in Hq. tauto.
Qed.

Lemma queue_at_deliver (qs : gmap loc Queue) m w q :
  qs !! q = deliver m <$> queues w !! q ->
  is_Some (queues w !! q) ->
  default [] (items <$> qs !! q)
  = if full_in w q then queue_at w q else queue_at w q ++ [m].
Proof.
  intros -> [Q HQ]. unfold full_in, queue_at, deliver. rewrite HQ. simpl.
  by destruct (queue_full Q).
Qed.

(** [C2] publish: [_send_event] returns normally (each enqueue is a
    [put_nowait], which never waits); the registry afterwards is the old
    one without exactly the subscribers whose queue was full; each of the
    others has the event at the end of its queue; a full queue and every
    unregistered queue are left as they were. *)
Theorem send_event_drops_exactly_the_full t d w :
  wf w ->
  let w' := after (_send_event t d) w in
  result (_send_event t d) w = Return tt
  ∧ _subscribers (state w')
    = filter (fun q => ¬ full_in w q) (_subscribers (state w))
  ∧ (∀ q, q ∈ _subscribers (state w) ->
          if full_in w q
          then (queues w' !! q = queues w !! q ∧ q ∉ _subscribers (state w'))
          else (q ∈ _subscribers (state w')
                ∧ queue_at w' q = queue_at w q ++ [(t, d)]))
  ∧ (∀ q, q ∉ _subscribers (state w) -> queues w' !! q = queues w !! q).
Proof.
  intros [Hlog Hsubs Hnd]. unfold after, result.
  destruct (send_event_run t d w Hnd) as (qs & -> & Hqs). simpl.
  split; [done|]. split; [done|]. split.
  - intros q Hq. specialize (Hqs q). rewrite bool_decide_eq_true_2 in Hqs by done.
    assert (is_Some (queues w !! q)) as HQ by (by apply elem_of_dom, Hsubs).
    pose proof (queue_at_deliver qs (t, d) w q Hqs HQ) as Hat.
    destruct HQ as [Q HQ].
    destruct (full_in w q) eqn:Hfull.
    + split.
      * rewrite Hqs, HQ. simpl. unfold deliver.
        unfold full_in in Hfull. rewrite HQ in Hfull. by rewrite Hfull.
      * rewrite list_elem_of_filter, Hfull. intros [Hn _]. by apply Hn.
    + split.
      * rewrite list_elem_of_filter, Hfull. split; [intros H; exact H|done].
      * exact Hat.
  - intros q Hq. rewrite Hqs. by rewrite bool_decide_eq_false_2.
Qed.

(** ** What each call leaves behind *)

Lemma add_log_unfold line w :
  add_log line w = _send_event "log" line (log_appended line w).
Proof.
  unfold add_log, log_appended. unfold_M. unfold list_append, list_len,
    list_slice_from, new_list. unfold_M. simpl.
  destruct (_max_log_lines (state w) <? _); reflexivity.
Qed.

Lemma add_log_after line w :
  after (add_log line) w = after (_send_event "log" line) (log_appended line w).
Proof. unfold after. by rewrite add_log_unfold. Qed.

Lemma log_appended_hub line w : hub (log_appended line w) = hub w.
Proof.
  unfold log_appended, hub. simpl.
  destruct (_max_log_lines (state w) <? _); reflexivity.
Qed.

Lemma send_event_frame t d w :
  let w' := after (_send_event t d) w in
  lists w' = lists w ∧ dicts w' = dicts w
  ∧ fields (state w') = fields (state w) ∧ extra (state w') = extra (state w)
  ∧ _log_lines (state w') = _log_lines (state w)
  ∧ _max_log_lines (state w') = _max_log_lines (state w).
Proof.
  destruct (send_event_shape t d w) as (qs & subs & H). simpl. rewrite H.
  repeat split.
Qed.

Lemma send_event_hub t d w :
  NoDup (_subscribers (state w)) ->
  let w' := after (_send_event t d) w in
  (∀ q, queues w' !! q = if bool_decide (q ∈ _subscribers (state w))
                         then deliver (t, d) <$> queues w !! q
                         else queues w !! q)
  ∧ _subscribers (state w')
    = filter (fun q => ¬ full_in w q) (_subscribers (state w)).
Proof.
  intros Hnd. unfold after.
  destruct (send_event_run t d w Hnd) as (qs & -> & Hqs). simpl. done.
Qed.

Lemma send_event_hub_ext t d w1 w2 :
  hub w1 = hub w2 -> NoDup (_subscribers (state w2)) ->
  hub (after (_send_event t d) w1) = hub (after (_send_event t d) w2).
Proof.
  unfold hub. intros [= Hq Hs] Hnd.
  destruct (send_event_hub t d w2 Hnd) as [Hq2 Hs2].
  rewrite <- Hs in Hnd.
  destruct (send_event_hub t d w1 Hnd) as [Hq1 Hs1].
  f_equal.
  - apply map_eq. intros q. rewrite Hq1, Hq2, Hq, Hs. done.
  - rewrite Hs1, Hs2, Hs. apply filter_ext_in. intros q _.
    unfold full_in. by rewrite Hq.
Qed.

(** ** The log buffer *)

Lemma lastn_lastn_app {A} (n : nat) (xs ys : list A) :
  lastn n (lastn n xs ++ ys) = lastn n (xs ++ ys).
Proof.
  destruct (decide (length ys <= n)%nat) as [Hle|Hgt].
  - rewrite !lastn_app by done. f_equal.
    unfold lastn. rewrite drop_drop, length_drop. f_equal. lia.
  - unfold lastn. rewrite !length_app, length_drop.
    rewrite !drop_app_ge by (rewrite ?length_drop; lia).
    rewrite length_drop. f_equal. lia.
Qed.

Lemma log_appended_buffer line w :
  _log_lines (state w) ∈ dom (lists w) ->
  log_buffer (log_appended line w)
  = (let b := log_buffer w ++ [VStr line] in
     if _max_log_lines (state w) <? Z.of_nat (length b)
     then slice_from (- _max_log_lines (state w)) b else b)
  ∧ _log_lines (state (log_appended line w)) ∈ dom (lists (log_appended line w))
  ∧ _max_log_lines (state (log_appended line w)) = _max_log_lines (state w).
Proof.
  intros Hdom. apply elem_of_dom in Hdom as [xs Hxs].
  unfold log_appended, log_buffer, list_at. simpl.
  rewrite lookup_alter_eq, Hxs. simpl.
  destruct (_max_log_lines (state w) <? _); simpl.
  - rewrite lookup_insert_eq. simpl. split; [done|]. split; [|done].
    apply elem_of_dom. rewrite lookup_insert_eq. eauto.
  - rewrite lookup_alter_eq, Hxs. simpl. split; [done|]. split; [|done].
    apply elem_of_dom. rewrite lookup_alter_eq, Hxs. simpl. eauto.
Qed.

Lemma add_log_buffer line w :
  log_buffer (after (add_log line) w) = log_buffer (log_appended line w)
  ∧ _log_lines (state (after (add_log line) w))
    = _log_lines (state (log_appended line w))
  ∧ lists (after (add_log line) w) = lists (log_appended line w)
  ∧ _max_log_lines (state (after (add_log line) w))
    = _max_log_lines (state (log_appended line w)).
Proof.
  unfold after. rewrite add_log_unfold.
  destruct (send_event_frame "log" line (log_appended line w))
    as (Hl & _ & _ & _ & Hlog & Hmax).
  unfold after in *. unfold log_buffer, list_at. rewrite Hl, Hlog, Hmax. done.
Qed.

Lemma add_logs_buffer (K : nat) (ls : list string) : ∀ w,
  _log_lines (state w) ∈ dom (lists w) ->
  _max_log_lines (state w) = Z.of_nat K ->
  (0 < K)%nat ->
  (length (log_buffer w) <= K)%nat ->
  log_buffer (add_logs ls w) = lastn K (log_buffer w ++ map VStr ls).
Proof.
  induction ls as [|line r IH]; intros w Hdom HK Hpos Hlen; simpl.
  - rewrite app_nil_r. symmetry. by apply lastn_all.
  - destruct (add_log_buffer line w) as (Hb & Hl & Hls & Hm).
    destruct (log_appended_buffer line w Hdom) as (Hb' & Hdom' & Hm').
    assert (log_buffer (after (add_log line) w)
            = lastn K (log_buffer w ++ [VStr line])) as Hstep.
    { rewrite Hb, Hb'. cbv zeta. rewrite HK.
      destruct (Z.ltb_spec (Z.of_nat K)
                  (Z.of_nat (length (log_buffer w ++ [VStr line])))).
      - rewrite slice_from_neg by lia. by rewrite Nat2Z.id.
      - symmetry. apply lastn_all. lia. }
    rewrite IH.
    + rewrite Hstep, lastn_lastn_app. by rewrite <- app_assoc.
    + by rewrite Hl, Hls.
    + by rewrite Hm, Hm'.
    + done.
    + rewrite Hstep, lastn_length. lia.
Qed.

(** [C5] Starting from a new instance (empty buffer, bound 500), after any
    sequence of [add_log] calls the buffer holds exactly the last
    [min (number of calls) 500] lines in call order, so it never holds more
    than 500. *)
Theorem log_buffer_holds_the_last_500 (ls : list string) :
  log_buffer (add_logs ls init_world)
  = lastn (Nat.min (length ls) 500) (map VStr ls)
  ∧ (length (log_buffer (add_logs ls init_world)) <= 500)%nat.
Proof.
  assert (log_buffer (add_logs ls init_world) = lastn 500 (map VStr ls)) as H.
  { rewrite (add_logs_buffer 500).
    - reflexivity.
    - apply elem_of_dom. eexists. reflexivity.
    - reflexivity.
    - lia.
    - replace (log_buffer init_world) with (@nil val) by reflexivity.
      simpl. lia. }
  rewrite H. split.
  - rewrite <- (length_map VStr ls), Nat.min_comm. symmetry. apply lastn_min.
  - rewrite lastn_length. lia.
Qed.

Lemma publish_hub t d w0 w :
  hub w0 = hub w -> NoDup (_subscribers (state w)) ->
  let w' := after (_send_event t d) w0 in
  (∀ q, queues w' !! q = if bool_decide (q ∈ _subscribers (state w))
                         then deliver (t, d) <$> queues w !! q
                         else queues w !! q)
  ∧ _subscribers (state w')
    = filter (fun q => ¬ full_in w q) (_subscribers (state w)).
Proof.
  intros Hhub Hnd.
  pose proof (send_event_hub_ext t d w0 w Hhub Hnd) as [= Hq Hs].
  destruct (send_event_hub t d w Hnd) as [Hq' Hs'].
  simpl. rewrite Hq, Hs. done.
Qed.

Section Calls.
Context (json_dumps : World -> val -> outcome json_text)
        {LogRecord : Type} (format : LogRecord -> outcome string).

Local Abbreviation exec' := (exec json_dumps format).
Local Abbreviation run' := (run json_dumps format).
Local Abbreviation published' := (published json_dumps format).
Local Abbreviation trace' := (trace json_dumps format).
Local Abbreviation drained' := (drained json_dumps format).
Local Abbreviation keeps_up' := (keeps_up json_dumps format).
Local Abbreviation reachable' := (reachable json_dumps format).
Local Abbreviation _notify' := (_notify json_dumps).
Local Abbreviation emit' := (emit format add_log).
Implicit Types (acts : list (action LogRecord)).

Lemma to_dict_unfold w :
  to_dict w
  = (Return (fresh (dom (dicts w))),
     set_dicts (<[fresh (dom (dicts w))
                  := map (fun a => (attr_name a, fields (state w) a)) to_dict_keys]>
                  (dicts w)) w).
Proof. reflexivity. Qed.

Lemma notify_unfold w :
  _notify' w
  = match json_dumps (after to_dict w) (VDict (fresh (dom (dicts w)))) with
    | Return data => _send_event "state" data (after to_dict w)
    | Raise e => (Raise e, after to_dict w)
    end.
Proof.
  unfold _notify, dumps. unfold_M. rewrite to_dict_unfold. simpl.
  by destruct (json_dumps _ _).
Qed.

Lemma notify_after w :
  after _notify' w
  = match json_dumps (after to_dict w) (VDict (fresh (dom (dicts w)))) with
    | Return data => after (_send_event "state" data) (after to_dict w)
    | Raise _ => after to_dict w
    end.
Proof. unfold after at 1. rewrite notify_unfold. by destruct (json_dumps _ _). Qed.

Lemma emit_after r w :
  after (emit' r) w
  = match format r with
    | Return m => after (add_log m) w
    | Raise _ => w
    end.
Proof.
  unfold emit. unfold_M.
  destruct (format r) as [m|e]; simpl.
  - destruct (add_log m w) as [[[]|e] w']; simpl; [done|].
    by destruct (is_Exception e).
  - by destruct (is_Exception e).
Qed.

(** Every call either leaves the queues and the registry alone, or is one
    of [subscribe], [unsubscribe], [get], or publishes one event. *)
Lemma exec_hub (a : action LogRecord) w :
  wf w ->
  match a with
  | Subscribe =>
      hub (exec' a w)
      = (<[fresh (dom (queues w)) := mkQueue 50 []]> (queues w),
         _subscribers (state w) ++ [fresh (dom (queues w))])
  | Unsubscribe q =>
      hub (exec' a w)
      = (queues w, filter (fun x => x ≠ q) (_subscribers (state w)))
  | Drain q =>
      hub (exec' a w)
      = (match queues w !! q with
         | Some (mkQueue n (_ :: rest)) => <[q := mkQueue n rest]> (queues w)
         | _ => queues w
         end, _subscribers (state w))
  | _ =>
      match published' a w with
      | [] => hub (exec' a w) = hub w
      | m :: _ =>
          (∀ q, queues (exec' a w) !! q
                = if bool_decide (q ∈ _subscribers (state w))
                  then deliver m <$> queues w !! q
                  else queues w !! q)
          ∧ _subscribers (state (exec' a w))
            = filter (fun q => ¬ full_in w q) (_subscribers (state w))
      end
  end.
Proof.
  intros [Hlog Hsubs Hnd].
  destruct a as [name v|line| | |n| |q|q|r|l f|d f]; simpl.
  - unfold setattr, after. unfold_M. simpl. by destruct (attr_of_name name).
  - unfold after. rewrite add_log_unfold.
    apply (publish_hub "log" line); [apply log_appended_hub|done].
  - unfold after at 1, result. unfold_M. unfold dumps. rewrite notify_unfold.
    rewrite to_dict_unfold. simpl.
    destruct (json_dumps _ _) as [data|e]; simpl.
    + by apply (publish_hub "state" data (after to_dict w)).
    + reflexivity.
  - reflexivity.
  - reflexivity.
  - reflexivity.
  - unfold unsubscribe, after, hub. unfold_M. unfold subscribers_remove.
    case_bool_decide as Hin; simpl.
    + by rewrite list_remove_NoDup.
    + f_equal. symmetry. apply filter_all. intros x Hx ->. done.
  - unfold queue_get, after, hub. simpl.
    destruct (queues w !! q) as [[n [|m rest]]|]; reflexivity.
  - rewrite emit_after. destruct (format r) as [m|e]; [|reflexivity].
    unfold after. rewrite add_log_unfold.
    apply (publish_hub "log" m); [apply log_appended_hub|done].
  - reflexivity.
  - reflexivity.
Qed.

(** The contents of every list store, dict store and field after a call. *)
Lemma exec_lists (a : action LogRecord) w :
  lists (exec' a w)
  = match a with
    | AddLog line => lists (log_appended line w)
    | Emit r => match format r with
                | Return m => lists (log_appended m w)
                | Raise _ => lists w
                end
    | GetLogs n =>
        let xs := slice_from (- n) (log_buffer w) in
        let l1 := fresh (dom (lists w)) in
        <[fresh (dom (<[l1 := xs]> (lists w))) := xs]> (<[l1 := xs]> (lists w))
    | MutateList l f => alter f l (lists w)
    | _ => lists w
    end.
Proof.
  destruct a as [name v|line| | |n| |q|q|r|l f|d f]; simpl.
  - unfold setattr, after. unfold_M. simpl. by destruct (attr_of_name name).
  - apply add_log_buffer.
  - unfold after. rewrite notify_unfold. destruct (json_dumps _ _); [|done].
    apply (send_event_frame "state" _ (after to_dict w)).
  - reflexivity.
  - unfold get_logs, after, list_slice_from, list_copy, new_list, log_buffer.
    unfold_M. simpl. f_equal. unfold list_at. simpl.
    by rewrite lookup_insert_eq.
  - reflexivity.
  - unfold unsubscribe, after. unfold_M. unfold subscribers_remove.
    case_bool_decide; [|done].
    by destruct (list_remove q (_subscribers (state w))).
  - unfold queue_get, after.
    by destruct (queues w !! q) as [[n [|m rest]]|].
  - rewrite emit_after. destruct (format r); [|done]. apply add_log_buffer.
  - reflexivity.
  - reflexivity.
Qed.

Lemma exec_log_lines (a : action LogRecord) w :
  _log_lines (state (exec' a w))
  = match a with
    | AddLog line => _log_lines (state (log_appended line w))
    | Emit r => match format r with
                | Return m => _log_lines (state (log_appended m w))
                | Raise _ => _log_lines (state w)
                end
    | _ => _log_lines (state w)
    end.
Proof.
  destruct a as [name v|line| | |n| |q|q|r|l f|d f]; simpl.
  - unfold setattr, after. unfold_M. simpl. by destruct (attr_of_name name).
  - apply add_log_buffer.
  - unfold after. rewrite notify_unfold. destruct (json_dumps _ _); [|done].
    apply (send_event_frame "state" _ (after to_dict w)).
  - reflexivity.
  - reflexivity.
  - reflexivity.
  - unfold unsubscribe, after. unfold_M. unfold subscribers_remove.
    case_bool_decide; [|done].
    by destruct (list_remove q (_subscribers (state w))).
  - unfold queue_get, after.
    by destruct (queues w !! q) as [[n [|m rest]]|].
  - rewrite emit_after. destruct (format r); [|done]. apply add_log_buffer.
  - reflexivity.
  - reflexivity.
Qed.

Lemma exec_dicts (a : action LogRecord) w :
  dicts (exec' a w)
  = match a with
    | ToDict | Notify =>
        <[fresh (dom (dicts w))
          := map (fun x => (attr_name x, fields (state w) x)) to_dict_keys]>
          (dicts w)
    | MutateDict d f => alter f d (dicts w)
    | _ => dicts w
    end.
Proof.
  destruct a as [name v|line| | |n| |q|q|r|l f|d f]; simpl.
  - unfold setattr, after. unfold_M. simpl. by destruct (attr_of_name name).
  - rewrite add_log_after.
    destruct (send_event_frame "log" line (log_appended line w)) as (_ & -> & _).
    unfold log_appended. by destruct (_ <? _).
  - rewrite notify_after. destruct (json_dumps _ _) as [data|]; [|done].
    by destruct (send_event_frame "state" data (after to_dict w)) as (_ & -> & _).
  - reflexivity.
  - reflexivity.
  - reflexivity.
  - unfold unsubscribe, after. unfold_M. unfold subscribers_remove.
    case_bool_decide; [|done].
    by destruct (list_remove q (_subscribers (state w))).
  - unfold queue_get, after.
    by destruct (queues w !! q) as [[n [|m rest]]|].
  - rewrite emit_after. destruct (format r) as [m|]; [|done].
    rewrite add_log_after.
    destruct (send_event_frame "log" m (log_appended m w)) as (_ & -> & _).
    unfold log_appended. by destruct (_ <? _).
  - reflexivity.
  - reflexivity.
Qed.

Lemma exec_fields (a : action LogRecord) w :
  fields (state (exec' a w))
  = match a with
    | Assign name v =>
        match attr_of_name name with
        | Some x => <[x := v]> (fields (state w))
        | None => fields (state w)
        end
    | _ => fields (state w)
    end.
Proof.
  destruct a as [name v|line| | |n| |q|q|r|l f|d f]; simpl.
  - unfold setattr, after. unfold_M. simpl. by destruct (attr_of_name name).
  - rewrite add_log_after.
    destruct (send_event_frame "log" line (log_appended line w))
      as (_ & _ & -> & _).
    unfold log_appended. by destruct (_ <? _).
  - rewrite notify_after. destruct (json_dumps _ _) as [data|]; [|done].
    by destruct (send_event_frame "state" data (after to_dict w))
      as (_ & _ & -> & _).
  - reflexivity.
  - reflexivity.
  - reflexivity.
  - unfold unsubscribe, after. unfold_M. unfold subscribers_remove.
    case_bool_decide; [|done].
    by destruct (list_remove q (_subscribers (state w))).
  - unfold queue_get, after.
    by destruct (queues w !! q) as [[n [|m rest]]|].
  - rewrite emit_after. destruct (format r) as [m|]; [|done].
    rewrite add_log_after.
    destruct (send_event_frame "log" m (log_appended m w)) as (_ & _ & -> & _).
    unfold log_appended. by destruct (_ <? _).
  - reflexivity.
  - reflexivity.
Qed.

(** ** Objects a call does not touch *)

Lemma log_appended_lists line w l :
  l ∈ dom (lists w) -> l ≠ _log_lines (state w) ->
  lists (log_appended line w) !! l = lists w !! l.
Proof.
  intros Hl Hne. unfold log_appended. simpl.
  destruct (_ <? _); simpl.
  - rewrite lookup_insert_ne.
    + by rewrite lookup_alter_ne.
    + intros <-. rewrite dom_alter_L in Hl. by apply is_fresh in Hl.
  - by rewrite lookup_alter_ne.
Qed.

Lemma log_appended_dom line w l :
  l ∈ dom (lists w) -> l ∈ dom (lists (log_appended line w)).
Proof.
  intros Hl. unfold log_appended. simpl.
  destruct (_ <? _); simpl.
  - rewrite dom_insert_L, dom_alter_L. apply elem_of_union. by right.
  - by rewrite dom_alter_L.
Qed.

Lemma log_appended_log_lines line w :
  _log_lines (state (log_appended line w)) = _log_lines (state w)
  ∨ _log_lines (state (log_appended line w)) ∉ dom (lists w).
Proof.
  unfold log_appended. simpl.
  destruct (_ <? _); simpl; [right|by left].
  rewrite <- (dom_alter_L (fun xs => xs ++ [VStr line]) (lists w)
                          (_log_lines (state w))).
  apply is_fresh.
Qed.

Lemma exec_lists_dom (a : action LogRecord) w l :
  l ∈ dom (lists w) -> l ∈ dom (lists (exec' a w)).
Proof.
  intros Hl. rewrite exec_lists.
  destruct a as [name v|line| | |n| |q|q|r|l' f|d f]; try done.
  - by apply log_appended_dom.
  - cbv zeta. rewrite !dom_insert_L, !elem_of_union. auto.
  - destruct (format r); [by apply log_appended_dom|done].
  - by rewrite dom_alter_L.
Qed.

Lemma exec_lists_frame (a : action LogRecord) w l :
  l ∈ dom (lists w) -> l ≠ _log_lines (state w) -> mutates_list l a = false ->
  lists (exec' a w) !! l = lists w !! l.
Proof.
  intros Hl Hne Hmut. rewrite exec_lists.
  destruct a as [name v|line| | |n| |q|q|r|l' f|d f]; try done.
  - by apply log_appended_lists.
  - cbv zeta. rewrite lookup_insert_ne.
    + rewrite lookup_insert_ne; [done|]. intros <-. by apply is_fresh in Hl.
    + intros Heq.
      pose proof (is_fresh (dom (<[fresh (dom (lists w))
                                  := slice_from (- n) (log_buffer w)]> (lists w))))
        as Hf.
      rewrite Heq in Hf. apply Hf. rewrite dom_insert_L, elem_of_union. auto.
  - destruct (format r); [by apply log_appended_lists|done].
  - simpl in Hmut. apply bool_decide_eq_false in Hmut.
    by rewrite lookup_alter_ne.
Qed.

Lemma exec_log_lines_cases (a : action LogRecord) w :
  _log_lines (state (exec' a w)) = _log_lines (state w)
  ∨ _log_lines (state (exec' a w)) ∉ dom (lists w).
Proof.
  rewrite exec_log_lines.
  destruct a as [name v|line| | |n| |q|q|r|l' f|d f]; auto.
  - apply log_appended_log_lines.
  - destruct (format r); [apply log_appended_log_lines|auto].
Qed.

Lemma exec_dicts_dom (a : action LogRecord) w d :
  d ∈ dom (dicts w) -> d ∈ dom (dicts (exec' a w)).
Proof.
  intros Hd. rewrite exec_dicts.
  destruct a as [name v|line| | |n| |q|q|r|l' f|d' f]; try done.
  - rewrite dom_insert_L, elem_of_union. auto.
  - rewrite dom_insert_L, elem_of_union. auto.
  - by rewrite dom_alter_L.
Qed.

Lemma exec_dicts_frame (a : action LogRecord) w d :
  d ∈ dom (dicts w) -> mutates_dict d a = false ->
  dicts (exec' a w) !! d = dicts w !! d.
Proof.
  intros Hd Hmut. rewrite exec_dicts.
  destruct a as [name v|line| | |n| |q|q|r|l' f|d' f]; try done.
  - rewrite lookup_insert_ne; [done|]. intros <-. by apply is_fresh in Hd.
  - rewrite lookup_insert_ne; [done|]. intros <-. by apply is_fresh in Hd.
  - simpl in Hmut. apply bool_decide_eq_false in Hmut.
    by rewrite lookup_alter_ne.
Qed.

(** ** Well-formedness is an invariant *)

Lemma deliver_dom (qs qs0 : gmap loc Queue) (subs : list loc) m :
  (∀ q, qs !! q = if bool_decide (q ∈ subs)
                  then deliver m <$> qs0 !! q else qs0 !! q) ->
  dom qs = dom qs0.
Proof.
  intros H. apply set_eq. intros q. rewrite !elem_of_dom, H.
  case_bool_decide; [|done]. by rewrite fmap_is_Some.
Qed.

(** The five ways a call can act on the queues and the registry. *)
Lemma exec_hub_cases (a : action LogRecord) w :
  wf w ->
  (published' a w = [] ∧ hub (exec' a w) = hub w
   ∧ ∀ q, drained_by q a w = [] ∧ unsubscribes q a = false)
  ∨ (∃ m, published' a w = [m]
       ∧ (∀ q, queues (exec' a w) !! q
               = if bool_decide (q ∈ _subscribers (state w))
                 then deliver m <$> queues w !! q
                 else queues w !! q)
       ∧ _subscribers (state (exec' a w))
         = filter (fun q => ¬ full_in w q) (_subscribers (state w))
       ∧ ∀ q, drained_by q a w = [] ∧ unsubscribes q a = false)
  ∨ (a = Subscribe
     ∧ hub (exec' a w)
       = (<[fresh (dom (queues w)) := mkQueue 50 []]> (queues w),
          _subscribers (state w) ++ [fresh (dom (queues w))]))
  ∨ (∃ q', a = Unsubscribe q'
       ∧ hub (exec' a w)
         = (queues w, filter (fun x => x ≠ q') (_subscribers (state w))))
  ∨ (∃ q', a = Drain q'
       ∧ hub (exec' a w)
         = (match queues w !! q' with
            | Some (mkQueue n (_ :: rest)) => <[q' := mkQueue n rest]> (queues w)
            | _ => queues w
            end, _subscribers (state w))).
Proof.
  intros Hwf. pose proof (exec_hub a w Hwf) as H.
  destruct a as [name v|line| | |n| |q'|q'|r|l' f|d f]; simpl in H.
  - left. done.
  - right; left. exists ("log", line). destruct H. done.
  - simpl. destruct (result _ w) as [data|e].
    + right; left. exists ("state", text_of data). destruct H. done.
    + left. done.
  - left. done.
  - left. done.
  - do 2 right; left. done.
  - do 3 right; left. eauto.
  - do 4 right. eauto.
  - simpl. destruct (format r) as [m|e].
    + right; left. exists ("log", m). destruct H. done.
    + left. done.
  - left. done.
  - left. done.
Qed.

Lemma exec_queues_dom (a : action LogRecord) w q :
  wf w -> q ∈ dom (queues w) -> q ∈ dom (queues (exec' a w)).
Proof.
  intros Hwf Hq.
  destruct (exec_hub_cases a w Hwf)
    as [(_ & [= -> _] & _)|[(m & _ & Hqs & _)|[(_ & [= -> _])
       |[(q' & _ & [= -> _])|(q' & _ & [= -> _])]]]].
  - done.
  - by rewrite (deliver_dom _ _ _ _ Hqs).
  - rewrite dom_insert_L, elem_of_union. auto.
  - done.
  - destruct (queues w !! q') as [[n [|m rest]]|] eqn:HQ; try done.
    rewrite dom_insert_L, elem_of_union. auto.
Qed.

Lemma exec_wf (a : action LogRecord) w : wf w -> wf (exec' a w).
Proof.
  intros Hwf. pose proof (exec_queues_dom a w) as Hdom.
  pose proof (exec_hub_cases a w Hwf) as H.
  destruct Hwf as [Hlog Hsubs Hnd].
  assert (wf w) as Hwf by done.
  assert (∀ q, q ∈ _subscribers (state w) -> q ∈ dom (queues (exec' a w)))
    as Hold by auto.
  split.
  - destruct (exec_log_lines_cases a w) as [->|Hfresh].
    + by apply exec_lists_dom.
    + rewrite exec_log_lines in *. rewrite exec_lists.
      destruct a as [name v|line| | |n| |q'|q'|r|l' f|d f]; try done.
      * by apply log_appended_buffer.
      * destruct (format r); [by apply log_appended_buffer|done].
  - intros q Hq.
    destruct H as [(_ & [= _ Hs] & _)|[(m & _ & _ & Hs & _)|[(_ & [= Hqs Hs])
       |[(q' & _ & [= _ Hs])|(q' & _ & [= _ Hs])]]]]; rewrite Hs in Hq.
    + auto.
    + apply list_elem_of_filter in Hq. apply Hold, Hq.
    + rewrite elem_of_app, list_elem_of_singleton in Hq.
      destruct Hq as [?| ->]; [auto|].
      rewrite Hqs, dom_insert_L, elem_of_union. left. by apply elem_of_singleton.
    + apply list_elem_of_filter in Hq. apply Hold, Hq.
    + auto.
  - destruct H as [(_ & [= _ Hs] & _)|[(m & _ & _ & Hs & _)|[(_ & [= Hqs Hs])
       |[(q' & _ & [= _ Hs])|(q' & _ & [= _ Hs])]]]]; rewrite Hs.
    + done.
    + by apply NoDup_filter.
    + apply NoDup_app. split; [done|]. split; [|apply NoDup_singleton].
      intros q Hq ->%list_elem_of_singleton.
      apply Hsubs in Hq. by apply is_fresh in Hq.
    + by apply NoDup_filter.
    + done.
Qed.

Lemma run_cons (a : action LogRecord) acts w :
  run' (a :: acts) w = run' acts (exec' a w).
Proof. reflexivity. Qed.

Lemma run_wf acts : ∀ w, wf w -> wf (run' acts w).
Proof.
  induction acts as [|a r IH]; intros w Hwf; [done|].
  rewrite run_cons. by apply IH, exec_wf.
Qed.

Lemma init_world_wf : wf init_world.
Proof.
  split; simpl.
  - apply elem_of_dom. by eexists.
  - intros q Hq. by apply elem_of_nil in Hq.
  - apply NoDup_nil_2.
Qed.

Lemma reachable_wf w : reachable' w -> wf w.
Proof.
  induction 1 as [|w a _ IH]; [apply init_world_wf|by apply exec_wf].
Qed.

(** ** Delivery to one queue *)

(** What one call does to the contents of an existing queue [q]: it gains
    the published event when [q] is registered and has room, and loses
    what its holder takes out. *)
Lemma exec_queue_step (a : action LogRecord) w q :
  wf w -> q ∈ dom (queues w) ->
  drained_by q a w ++ queue_at (exec' a w) q
  = queue_at w q
    ++ (if bool_decide (q ∈ _subscribers (state w)) && negb (full_in w q)
        then published' a w else []).
Proof.
  intros Hwf Hq.
  assert ((if bool_decide (q ∈ _subscribers (state w)) && negb (full_in w q)
           then @nil msg else []) = []) as Hnil by (by destruct (_ && _)).
  destruct (exec_hub_cases a w Hwf)
    as [(-> & [= Hqs _] & Hd)|[(m & -> & Hqs & _ & Hd)|[(Ha & [= Hqs _])
       |[(q' & Ha & [= Hqs _])|(q' & Ha & [= Hqs _])]]]].
  - destruct (Hd q) as [-> _]. simpl. unfold queue_at at 1.
    by rewrite Hqs, Hnil, app_nil_r.
  - destruct (Hd q) as [-> _]. simpl. unfold queue_at at 1.
    specialize (Hqs q). case_bool_decide; simpl.
    + rewrite (queue_at_deliver _ m w q Hqs) by (by apply elem_of_dom).
      destruct (full_in w q); simpl; by rewrite ?app_nil_r.
    + rewrite Hqs, app_nil_r. done.
  - unfold queue_at at 1. rewrite Hqs, lookup_insert_ne.
    + subst a. simpl. by rewrite Hnil, app_nil_r.
    + intros <-. by apply is_fresh in Hq.
  - unfold queue_at at 1. rewrite Hqs. subst a. simpl.
    by rewrite Hnil, app_nil_r.
  - unfold queue_at at 1. rewrite Hqs. subst a. simpl.
    rewrite Hnil, app_nil_r. clear Hnil.
    unfold result, queue_get, queue_at.
    case_bool_decide as Heq.
    + subst q'. destruct (queues w !! q) as [[n [|m rest]]|] eqn:HQ; simpl;
        rewrite ?HQ, ?lookup_insert_eq; done.
    + simpl. destruct (queues w !! q') as [[n [|m rest]]|]; try done.
      by rewrite lookup_insert_ne.
Qed.

(** Whether an existing queue [q] is registered after a call. *)
Lemma exec_registered (a : action LogRecord) w q :
  wf w -> q ∈ dom (queues w) ->
  q ∈ _subscribers (state (exec' a w))
  <-> q ∈ _subscribers (state w) ∧ unsubscribes q a = false
      ∧ (published' a w = [] ∨ full_in w q = false).
Proof.
  intros Hwf Hq.
  destruct (exec_hub_cases a w Hwf)
    as [(-> & [= _ Hs] & Hd)|[(m & -> & _ & Hs & Hd)|[(Ha & [= _ Hs])
       |[(q' & Ha & [= _ Hs])|(q' & Ha & [= _ Hs])]]]]; rewrite Hs;
    try subst a.
  - destruct (Hd q) as [_ ->]. tauto.
  - destruct (Hd q) as [_ ->]. rewrite list_elem_of_filter.
    destruct (full_in w q); simpl; split.
    + intros [Hn _]. by destruct Hn.
    + intros (_ & _ & [?|?]); done.
    + tauto.
    + tauto.
  - simpl. rewrite elem_of_app, list_elem_of_singleton. split.
    + intros [?| ->]; [tauto|]. by apply is_fresh in Hq.
    + tauto.
  - simpl. rewrite list_elem_of_filter, bool_decide_eq_false.
    split; [intros [? ?]|intros (? & ? & _)]; repeat split; auto.
  - simpl. tauto.
Qed.

Lemma run_delivery q acts : ∀ w,
  wf w -> q ∈ _subscribers (state w) -> keeps_up' q acts w = true ->
  drained' q acts w ++ queue_at (run' acts w) q = queue_at w q ++ trace' acts w
  ∧ q ∈ _subscribers (state (run' acts w)).
Proof.
  induction acts as [|a r IH]; intros w Hwf Hq Hk.
  - simpl. by rewrite app_nil_r.
  - rewrite run_cons. simpl in *.
    apply andb_prop in Hk as [Hk Hrest]. apply andb_prop in Hk as [Hroom Hunsub].
    apply negb_true_iff in Hunsub.
    assert (q ∈ dom (queues w)) as Hdom by by apply Hwf.
    assert (published' a w = [] ∨ full_in w q = false) as Hpub.
    { destruct (published' a w); [by left|right]. by apply negb_true_iff. }
    assert (q ∈ _subscribers (state (exec' a w))) as Hq'.
    { by apply exec_registered. }
    destruct (IH (exec' a w) (exec_wf a w Hwf) Hq' Hrest) as [IH1 IH2].
    split; [|done].
    rewrite <- app_assoc, IH1, app_assoc, exec_queue_step by done.
    rewrite bool_decide_eq_true_2 by done. simpl.
    destruct Hpub as [Hnil| ->]; simpl.
    + rewrite Hnil. destruct (negb _); by rewrite <- app_assoc.
    + by rewrite <- app_assoc.
Qed.

(** [C6] After [subscribe()] returned [q], and over any later calls by
    anyone during which [q] has room whenever an event is published and is
    not unsubscribed: the events taken out of [q] so far followed by those
    still waiting in it are exactly the events published since, in publish
    order; [q] is still registered. *)
Theorem subscriber_receives_exactly_what_is_published w0 q w1 acts :
  wf w0 ->
  subscribe w0 = (Return q, w1) ->
  keeps_up' q acts w1 = true ->
  drained' q acts w1 ++ queue_at (run' acts w1) q = trace' acts w1
  ∧ q ∈ _subscribers (state (run' acts w1)).
Proof.
  intros Hwf Hsub Hk.
  assert (w1 = exec' Subscribe w0) as Hw1.
  { simpl. unfold after. by rewrite Hsub. }
  assert (q = fresh (dom (queues w0))) as Hq.
  { unfold subscribe, new_Queue, subscribers_append in Hsub. unfold_M.
    by injection Hsub as <- _. }
  assert (wf w1) as Hwf1 by (rewrite Hw1; by apply exec_wf).
  assert (queues w1 = <[q := mkQueue 50 []]> (queues w0)) as Hqs
    by (by rewrite Hw1, Hq).
  assert (_subscribers (state w1) = _subscribers (state w0) ++ [q]) as Hs
    by (by rewrite Hw1, Hq).
  assert (q ∈ _subscribers (state w1)) as Hin.
  { rewrite Hs, elem_of_app, list_elem_of_singleton. auto. }
  destruct (run_delivery q acts w1 Hwf1 Hin Hk) as [H1 H2].
  split; [|done]. rewrite H1.
  unfold queue_at. rewrite Hqs, lookup_insert_eq. done.
Qed.

(** ** Unsubscribing *)

Lemma run_unregistered q acts : ∀ w,
  wf w -> q ∈ dom (queues w) -> q ∉ _subscribers (state w) ->
  drained' q acts w ++ queue_at (run' acts w) q = queue_at w q
  ∧ q ∉ _subscribers (state (run' acts w)).
Proof.
  induction acts as [|a r IH]; intros w Hwf Hdom Hq.
  - done.
  - rewrite run_cons. simpl.
    assert (q ∉ _subscribers (state (exec' a w))) as Hq'.
    { rewrite exec_registered by done. tauto. }
    destruct (IH (exec' a w) (exec_wf a w Hwf)
                 (exec_queues_dom a w q Hwf Hdom) Hq') as [IH1 IH2].
    split; [|done].
    rewrite <- app_assoc, IH1, exec_queue_step by done.
    rewrite bool_decide_eq_false_2 by done. simpl. by rewrite app_nil_r.
Qed.

(** [C7] [unsubscribe(q)] for any queue object [q]: it returns normally
    whether or not [q] is registered; afterwards [q] is not in the
    registry, and the other subscribers keep their places; on an
    unregistered [q] nothing changes, so a second call is a no-op; and
    whatever is called later, [q] stays out of the registry and nothing is
    added to it (its contents only lose what its holder takes out). *)
Theorem unsubscribe_removes_for_good w q :
  wf w -> q ∈ dom (queues w) ->
  let w' := after (unsubscribe q) w in
  result (unsubscribe q) w = Return tt
  ∧ _subscribers (state w') = filter (fun x => x ≠ q) (_subscribers (state w))
  ∧ (q ∉ _subscribers (state w'))
  ∧ (q ∉ _subscribers (state w) -> w' = w)
  ∧ after (unsubscribe q) w' = w'
  ∧ ∀ acts, drained' q acts w' ++ queue_at (run' acts w') q = queue_at w' q
            ∧ q ∉ _subscribers (state (run' acts w')).
Proof.
  intros Hwf Hdom. cbv zeta.
  pose proof (exec_hub (Unsubscribe q) w Hwf) as [= Hqs Hs].
  pose proof (exec_wf (Unsubscribe q) w Hwf) as Hwf'.
  pose proof (exec_queues_dom (Unsubscribe q) w q Hwf Hdom) as Hdom'.
  simpl in Hqs, Hs, Hwf', Hdom'.
  assert (q ∉ _subscribers (state (after (unsubscribe q) w))) as Hout.
  { rewrite Hs, list_elem_of_filter. tauto. }
  assert (∀ w0, q ∉ _subscribers (state w0) -> unsubscribe q w0 = (Return tt, w0))
    as Hnoop.
  { intros w0 H0. unfold unsubscribe. unfold_M.
    by rewrite bool_decide_eq_false_2. }
  split; [|split; [done|split; [done|split; [|split]]]].
  - unfold result, unsubscribe. unfold_M. unfold subscribers_remove.
    case_bool_decide; [|done].
    rewrite list_remove_NoDup by (done || apply Hwf). done.
  - intros Hq. unfold after. by rewrite Hnoop.
  - unfold after at 1. by rewrite Hnoop.
  - intros acts. by apply run_unregistered.
Qed.

(** ** The list returned by [get_logs] *)

Lemma get_logs_run n w :
  let xs := slice_from (- n) (log_buffer w) in
  let l1 := fresh (dom (lists w)) in
  let l2 := fresh (dom (<[l1 := xs]> (lists w))) in
  get_logs n w = (Return l2, set_lists (<[l2 := xs]> (<[l1 := xs]> (lists w))) w).
Proof.
  unfold get_logs, list_slice_from, list_copy, new_list, log_buffer. unfold_M.
  cbn.
  replace (list_at _ (fresh (dom (lists w))))
    with (slice_from (- n) (list_at w (_log_lines (state w)))); [done|].
  unfold list_at. cbn. by rewrite lookup_insert_eq.
Qed.

Lemma get_logs_returns n w :
  returned_list (get_logs n) w = slice_from (- n) (log_buffer w).
Proof.
  unfold returned_list. rewrite get_logs_run. cbv zeta.
  unfold list_at. simpl. by rewrite lookup_insert_eq.
Qed.

(** For a positive [n] the result is the last [min n (len buffer)] lines,
    oldest first. *)
Lemma get_logs_positive n w :
  0 < n ->
  returned_list (get_logs n) w
  = lastn (Nat.min (Z.to_nat n) (length (log_buffer w))) (log_buffer w).
Proof.
  intros Hn. rewrite get_logs_returns, slice_from_neg by done.
  symmetry. apply lastn_min.
Qed.

(** For [n = 0] the slice [lines[-0:]] is the whole buffer. *)
Lemma get_logs_0 w : returned_list (get_logs 0) w = log_buffer w.
Proof. rewrite get_logs_returns. apply slice_from_0. Qed.

Lemma run_list_untouched l acts : ∀ w,
  l ∈ dom (lists w) -> l ≠ _log_lines (state w) ->
  forallb (fun a => negb (mutates_list l a)) acts = true ->
  lists (run' acts w) !! l = lists w !! l.
Proof.
  induction acts as [|a r IH]; intros w Hl Hne Hacts; [done|].
  rewrite run_cons. simpl in Hacts.
  apply andb_prop in Hacts as [Ha Hr]. apply negb_true_iff in Ha.
  assert (l ≠ _log_lines (state (exec' a w))) as Hne'.
  { destruct (exec_log_lines_cases a w) as [Heq|Hfresh].
    - congruence.
    - intros ->. done. }
  rewrite IH by (done || by apply exec_lists_dom).
  by apply exec_lists_frame.
Qed.

Lemma add_logs_run ls w : add_logs ls w = run' (map AddLog ls) w.
Proof.
  revert w. induction ls as [|l r IH]; intros w; [done|].
  simpl. by rewrite IH.
Qed.

(** [C9] [get_logs(n)] returns a list object that did not exist before the
    call and is not the buffer; the call leaves the state and the buffer
    as they were.  Changing the returned list in place, in any way, leaves
    the buffer unchanged; later [add_log] calls, and any later calls that
    do not themselves change the returned list in place, leave the
    returned list unchanged. *)
Theorem get_logs_returns_an_independent_list n w :
  wf w ->
  ∃ l, result (get_logs n) w = Return l
     ∧ let w1 := after (get_logs n) w in
       (l ∉ dom (lists w)) ∧ l ≠ _log_lines (state w1)
       ∧ state w1 = state w ∧ log_buffer w1 = log_buffer w
       ∧ (∀ f, log_buffer (after (list_mutate l f) w1) = log_buffer w1)
       ∧ (∀ ls, list_at (add_logs ls w1) l = list_at w1 l)
       ∧ (∀ acts, forallb (fun a => negb (mutates_list l a)) acts = true ->
                  list_at (run' acts w1) l = list_at w1 l).
Proof.
  intros [Hlog _ _].
  set (xs := slice_from (- n) (log_buffer w)).
  set (l1 := fresh (dom (lists w))).
  set (l2 := fresh (dom (<[l1 := xs]> (lists w)))).
  exists l2. unfold result, after. rewrite get_logs_run. simpl.
  fold xs l1 l2.
  set (w1 := set_lists (<[l2 := xs]> (<[l1 := xs]> (lists w))) w).
  assert (l1 ∉ dom (lists w)) as Hl1 by apply is_fresh.
  assert (l2 ∉ dom (<[l1 := xs]> (lists w))) as Hl2 by apply is_fresh.
  assert (l2 ∉ dom (lists w)) as Hl2'.
  { intros H. apply Hl2. rewrite dom_insert_L, elem_of_union. auto. }
  assert (l2 ≠ _log_lines (state w)) as Hne
    by (intros Heq; apply Hl2'; by rewrite Heq).
  assert (l1 ≠ _log_lines (state w)) as Hne1
    by (intros Heq; apply Hl1; by rewrite Heq).
  assert (l2 ∈ dom (lists w1)) as Hin.
  { unfold w1. simpl. rewrite dom_insert_L, elem_of_union, elem_of_singleton.
    auto. }
  assert (∀ acts, forallb (fun a => negb (mutates_list l2 a)) acts = true ->
                  list_at (run' acts w1) l2 = list_at w1 l2) as Hrun.
  { intros acts Hacts. unfold list_at.
    by rewrite (run_list_untouched l2 acts w1). }
  split; [done|]. split; [done|]. split; [done|]. split; [done|]. split.
  { unfold log_buffer, list_at, w1. simpl.
    by rewrite !lookup_insert_ne by done. }
  split.
  { intros f. unfold log_buffer, list_at, after, list_mutate. unfold_M. simpl.
    by rewrite lookup_alter_ne by done. }
  split; [|done].
  intros ls. rewrite add_logs_run. apply Hrun.
  clear. induction ls; [done|]. simpl. done.
Qed.

(** ** The snapshot returned by [to_dict] *)

Lemma run_dict_untouched d acts : ∀ w,
  d ∈ dom (dicts w) ->
  forallb (fun a => negb (mutates_dict d a)) acts = true ->
  dicts (run' acts w) !! d = dicts w !! d.
Proof.
  induction acts as [|a r IH]; intros w Hd Hacts; [done|].
  rewrite run_cons. simpl in Hacts.
  apply andb_prop in Hacts as [Ha Hr]. apply negb_true_iff in Ha.
  rewrite IH by (done || by apply exec_dicts_dom).
  by apply exec_dicts_frame.
Qed.

Lemma to_dict_contents w :
  dict_at (after to_dict w) (fresh (dom (dicts w)))
  = map (fun x => (attr_name x, fields (state w) x)) to_dict_keys.
Proof.
  unfold after. rewrite to_dict_unfold. unfold dict_at. simpl.
  by rewrite lookup_insert_eq.
Qed.

(** [C3], as the code has it.  [to_dict()] returns a dict object that did
    not exist before, holding under each of the 28 keys the value the
    field had at the time of the call; the state and all lists are as
    before.  Whatever attributes are assigned and whatever is called
    afterwards, short of changing the returned dict itself in place, its
    entries stay what they were.  The entries for positions, last_plan
    and config are the references the state holds: the copy is shallow. *)
Theorem to_dict_returns_a_shallow_copy w acts :
  let d := fresh (dom (dicts w)) in
  let w1 := after to_dict w in
  result to_dict w = Return d
  ∧ state w1 = state w ∧ lists w1 = lists w
  ∧ dict_at w1 d = map (fun x => (attr_name x, fields (state w) x)) to_dict_keys
  ∧ (forallb (fun a => negb (mutates_dict d a)) acts = true ->
     dict_at (run' acts w1) d = dict_at w1 d)
  ∧ d ∉ dom (dicts w).
Proof.
  cbv zeta. unfold result, after. rewrite to_dict_unfold. simpl.
  split; [done|]. split; [done|]. split; [done|]. split; [|split].
  - unfold dict_at. simpl. by rewrite lookup_insert_eq.
  - intros Hacts. unfold dict_at. rewrite run_dict_untouched; [done| |done].
    simpl. rewrite dom_insert_L, elem_of_union, elem_of_singleton. auto.
  - apply is_fresh.
Qed.

(** ** Assigning fields and notifying *)

Lemma attr_of_name_name x : attr_of_name (attr_name x) = Some x.
Proof. by destruct x. Qed.

Lemma attr_of_name_Some k x : attr_of_name k = Some x -> attr_name x = k.
Proof.
  unfold attr_of_name. intros H. apply List.find_some in H as [_ H].
  by apply String.eqb_eq.
Qed.

Lemma setattr_fields k v w x :
  fields (state (after (setattr k v) w)) x
  = if String.eqb k (attr_name x) then v else fields (state w) x.
Proof.
  destruct k as [k Hpub]. unfold setattr, after. unfold_M. simpl.
  destruct (attr_of_name k) as [y|] eqn:Hk; simpl.
  - apply attr_of_name_Some in Hk as <-.
    destruct (String.eqb_spec (attr_name y) (attr_name x)) as [Heq|Hne].
    + assert (y = x) as -> by
        (pose proof (attr_of_name_name x) as Hx; rewrite <- Heq in Hx;
         rewrite attr_of_name_name in Hx; by injection Hx).
      apply fn_lookup_insert.
    + apply fn_lookup_insert_ne. intros ->. done.
  - destruct (String.eqb_spec k (attr_name x)) as [->|]; [|done].
    by rewrite attr_of_name_name in Hk.
Qed.

Lemma setattr_extra k v w k' :
  attr_of_name k' = None ->
  extra (state (after (setattr k v) w)) !! k'
  = if String.eqb k k' then Some v else extra (state w) !! k'.
Proof.
  intros Hk'. destruct k as [k Hpub]. unfold setattr, after. unfold_M. simpl.
  destruct (String.eqb_spec k k') as [->|Hne].
  - rewrite Hk'. simpl. apply lookup_insert_eq.
  - destruct (attr_of_name k); simpl; [done|]. by apply lookup_insert_ne.
Qed.

Lemma assign_all_run kvs w :
  assign_all kvs w
  = (Return tt, run' (map (fun kv => Assign kv.1 kv.2) kvs) w).
Proof.
  revert w. induction kvs as [|[k v] r IH]; intros w; [done|].
  simpl. unfold_M. unfold setattr at 1. unfold_M. by rewrite IH.
Qed.

Lemma assign_all_fields kvs : ∀ w x,
  fields (state (after (assign_all kvs) w)) x
  = default (fields (state w) x) (assigned (attr_name x) kvs).
Proof.
  induction kvs as [|[k v] r IH]; intros w x; [done|].
  assert (after (assign_all ((k, v) :: r)) w
          = after (assign_all r) (after (setattr k v) w)) as ->.
  { unfold after. simpl. unfold_M. by unfold setattr at 1. }
  rewrite IH, setattr_fields. simpl.
  destruct (assigned (attr_name x) r); [done|].
  by destruct (String.eqb k (attr_name x)).
Qed.

Lemma assign_all_extra kvs : ∀ w k,
  attr_of_name k = None ->
  extra (state (after (assign_all kvs) w)) !! k
  = match assigned k kvs with
    | Some v => Some v
    | None => extra (state w) !! k
    end.
Proof.
  induction kvs as [|[k' v] r IH]; intros w k Hk; [done|].
  assert (after (assign_all ((k', v) :: r)) w
          = after (assign_all r) (after (setattr k' v) w)) as ->.
  { unfold after. simpl. unfold_M. by unfold setattr at 1. }
  rewrite IH, setattr_extra by done. simpl.
  destruct (assigned k r); [done|].
  by destruct (String.eqb k' k).
Qed.

Lemma assign_all_hub kvs : ∀ w, hub (after (assign_all kvs) w) = hub w.
Proof.
  induction kvs as [|[k v] r IH]; intros w; [done|].
  assert (after (assign_all ((k, v) :: r)) w
          = after (assign_all r) (after (setattr k v) w)) as ->.
  { unfold after. simpl. unfold_M. by unfold setattr at 1. }
  rewrite IH. unfold setattr, after, hub. unfold_M. simpl.
  by destruct (attr_of_name k).
Qed.

Lemma published_notify w :
  published' Notify w
  = match json_dumps (after to_dict w) (VDict (fresh (dom (dicts w)))) with
    | Return data => [("state", text_of data)]
    | Raise _ => []
    end.
Proof.
  simpl. unfold result, dumps, after. unfold_M. by rewrite to_dict_unfold.
Qed.

(** Only an assignment changes a field, and an assignment sends nothing. *)
Lemma field_change_sends_nothing (a : action LogRecord) w x :
  fields (state (exec' a w)) x ≠ fields (state w) x -> hub (exec' a w) = hub w.
Proof.
  rewrite exec_fields.
  destruct a as [name v|line| | |n| |q|q|r|l f|d f]; try done.
  intros _. simpl. unfold setattr, after, hub. unfold_M. simpl.
  by destruct (attr_of_name name).
Qed.

(** [C1], as the code has it.  The producer changes the status record by
    assigning attributes of the instance, [state.k = v] for each given
    name without a leading underscore that is not the name of a method:
    this never fails, each of the 28 fields ends with the last value given
    for it or keeps its value, and such a name that is no field is stored
    on the instance as well.  The assignments alone send nothing.
    A following [_notify()] builds the snapshot of the record as it now is
    and, when [json.dumps] accepts it, sends one [("state", json)] event:
    every registered subscriber with room has it at the end of its
    queue.  No call other than an assignment changes a field. *)
Theorem assign_then_notify_sends_the_new_snapshot kvs w q data :
  wf w ->
  q ∈ _subscribers (state w) -> full_in w q = false ->
  let w1 := after (assign_all kvs) w in
  let d := fresh (dom (dicts w1)) in
  json_dumps (after to_dict w1) (VDict d) = Return data ->
  result (assign_all kvs) w = Return tt
  ∧ (∀ x, fields (state w1) x
          = default (fields (state w) x) (assigned (attr_name x) kvs))
  ∧ (∀ k, attr_of_name k = None ->
          extra (state w1) !! k
          = match assigned k kvs with
            | Some v => Some v
            | None => extra (state w) !! k
            end)
  ∧ hub w1 = hub w
  ∧ dict_at (after to_dict w1) d
    = map (fun x => (attr_name x, fields (state w1) x)) to_dict_keys
  ∧ result _notify' w1 = Return tt
  ∧ queue_at (after _notify' w1) q = queue_at w q ++ [("state", text_of data)]
  ∧ ∀ a : action LogRecord,
      (∀ name v, a ≠ Assign name v) ->
      fields (state (exec' a w)) = fields (state w).
Proof.
  intros Hwf Hq Hroom. cbv zeta. intros Hdumps.
  pose proof (assign_all_hub kvs w) as Hhub.
  assert (wf (after (assign_all kvs) w)) as Hwf1.
  { unfold after. rewrite assign_all_run. by apply run_wf. }
  injection Hhub as Hqs Hsubs.
  split; [unfold result; by rewrite assign_all_run|].
  split; [apply assign_all_fields|].
  split; [apply assign_all_extra|].
  split; [unfold hub; by rewrite Hqs, Hsubs|].
  split; [apply to_dict_contents|].
  split.
  { unfold result. rewrite notify_unfold, Hdumps.
    destruct (send_event_run "state" data (after to_dict (after (assign_all kvs) w)))
      as (qs & -> & _); [apply Hwf1|done]. }
  pose proof (exec_queue_step Notify (after (assign_all kvs) w) q Hwf1) as Hstep.
  rewrite published_notify, Hdumps in Hstep.
  change (exec' Notify ?w0) with (after _notify' w0) in Hstep.
  change (drained_by q Notify ?w0) with (@nil msg) in Hstep.
  rewrite app_nil_l in Hstep. split.
  - rewrite Hstep.
    + rewrite Hsubs, bool_decide_eq_true_2 by done.
      unfold full_in in *. rewrite Hqs, Hroom. simpl.
      unfold queue_at. by rewrite Hqs.
    + rewrite Hqs. by apply Hwf.
  - intros a Ha. rewrite exec_fields.
    destruct a as [name v|line| | |n| |q0|q0|r|l f|d0 f]; try done.
    by destruct (Ha name v).
Qed.

(** ** The event stream *)

Lemma published_kind (a : action LogRecord) w m :
  m ∈ published' a w -> m.1 = "state" ∨ m.1 = "log".
Proof.
  destruct a as [name v|line| | |n| |q|q|r|l f|d f]; simpl;
    try (intros H; by apply elem_of_nil in H).
  - intros ->%list_elem_of_singleton. by right.
  - destruct (result _ w); [|intros H; by apply elem_of_nil in H].
    intros ->%list_elem_of_singleton. by left.
  - destruct (format r); [|intros H; by apply elem_of_nil in H].
    intros ->%list_elem_of_singleton. by right.
Qed.

Lemma exec_kinds_ok (a : action LogRecord) w :
  wf w -> kinds_ok w -> kinds_ok (exec' a w).
Proof.
  intros Hwf Hok q Q m.
  destruct (exec_hub_cases a w Hwf)
    as [(_ & [= Hqs _] & _)|[(m' & Hpub & Hqs & _)|[(_ & [= Hqs _])
       |[(q' & _ & [= Hqs _])|(q' & _ & [= Hqs _])]]]].
  - rewrite Hqs. apply Hok.
  - rewrite Hqs. case_bool_decide; [|apply Hok].
    destruct (queues w !! q) as [Q0|] eqn:HQ0; [|done].
    intros [= <-]. unfold deliver. destruct (queue_full Q0); [by apply (Hok q)|].
    simpl. rewrite elem_of_app, list_elem_of_singleton.
    intros [?| ->]; [by apply (Hok q Q0)|].
    apply (published_kind a w). rewrite Hpub. by apply list_elem_of_singleton.
  - rewrite Hqs. destruct (decide (q = fresh (dom (queues w)))) as [->|Hne].
    + rewrite lookup_insert_eq. intros [= <-]. simpl.
      intros H. by apply elem_of_nil in H.
    + rewrite lookup_insert_ne by done. apply Hok.
  - rewrite Hqs. apply Hok.
  - rewrite Hqs.
    destruct (queues w !! q') as [[n [|m0 rest]]|] eqn:HQ; try apply Hok.
    destruct (decide (q = q')) as [->|Hne].
    + rewrite lookup_insert_eq. intros [= <-]. simpl. intros Hm.
      apply (Hok q' _ m HQ). simpl. apply elem_of_cons. by right.
    + rewrite lookup_insert_ne by done. apply Hok.
Qed.

Lemma reachable_kinds_ok w : reachable' w -> kinds_ok w.
Proof.
  induction 1 as [|w a Hr IH].
  - intros q Q m H. unfold init_world in H. simpl in H.
    by rewrite lookup_empty in H.
  - apply exec_kinds_ok; [by apply reachable_wf|done].
Qed.

Lemma sse_init_data_unfold w :
  let snapshot := fresh (dom (dicts w)) in
  let kvs := map (fun x => (attr_name x, fields (state w) x)) to_dict_keys in
  let w1 := set_dicts (<[snapshot := kvs]> (dicts w)) w in
  let xs := slice_from (- 200) (log_buffer w1) in
  let l1 := fresh (dom (lists w1)) in
  let logs := fresh (dom (<[l1 := xs]> (lists w1))) in
  let w2 := set_lists (<[logs := xs]> (<[l1 := xs]> (lists w1))) w1 in
  let payload := fresh (dom (dicts w2)) in
  let w3 := set_dicts (<[payload := [("state", VDict snapshot);
                                     ("logs", VList logs)]]> (dicts w2)) w2 in
  (sse_init_data json_dumps) w = (json_dumps w3 (VDict payload), w3).
Proof.
  cbv zeta. unfold sse_init_data, dumps. unfold_M.
  rewrite to_dict_unfold. cbv iota beta. rewrite get_logs_run. reflexivity.
Qed.

Lemma sse_init_data_spec w :
  wf w ->
  let w0 := after (sse_init_data json_dumps) w in
  ∃ payload snapshot logs,
    result (sse_init_data json_dumps) w = json_dumps w0 (VDict payload)
    ∧ dict_at w0 payload = [("state", VDict snapshot); ("logs", VList logs)]
    ∧ dict_at w0 snapshot
      = map (fun x => (attr_name x, fields (state w) x)) to_dict_keys
    ∧ list_at w0 logs
      = lastn (Nat.min 200 (length (log_buffer w))) (log_buffer w)
    ∧ state w0 = state w ∧ hub w0 = hub w ∧ log_buffer w0 = log_buffer w.
Proof.
  intros [Hlog _ _]. cbv zeta.
  set (snapshot := fresh (dom (dicts w))).
  set (kvs := map (fun x => (attr_name x, fields (state w) x)) to_dict_keys).
  set (w1 := set_dicts (<[snapshot := kvs]> (dicts w)) w).
  set (xs := slice_from (- 200) (log_buffer w1)).
  set (l1 := fresh (dom (lists w1))).
  set (logs := fresh (dom (<[l1 := xs]> (lists w1)))).
  set (w2 := set_lists (<[logs := xs]> (<[l1 := xs]> (lists w1))) w1).
  set (payload := fresh (dom (dicts w2))).
  set (w3 := set_dicts (<[payload := [("state", VDict snapshot);
                                      ("logs", VList logs)]]> (dicts w2)) w2).
  assert ((sse_init_data json_dumps) w = (json_dumps w3 (VDict payload), w3)) as Hrun
    by apply sse_init_data_unfold.
  exists payload, snapshot, logs. unfold result, after. rewrite Hrun.
  cbv [fst snd].
  assert (payload ≠ snapshot) as Hne.
  { intros Heq. apply (is_fresh (dom (dicts w2))). fold payload.
    rewrite Heq.
    change (dicts w2) with (<[snapshot := kvs]> (dicts w)).
    rewrite dom_insert_L, elem_of_union, elem_of_singleton. auto. }
  assert (l1 ∉ dom (lists w)) as Hl1 by apply is_fresh.
  assert (logs ∉ dom (lists w)) as Hl2.
  { intros Hin. apply (is_fresh (dom (<[l1 := xs]> (lists w1)))). fold logs.
    rewrite dom_insert_L, elem_of_union. by right. }
  split; [done|]. split; [|split; [|split; [|split; [done|split; [done|]]]]].
  - unfold dict_at.
    change (dicts w3) with (<[payload := [("state", VDict snapshot);
                                          ("logs", VList logs)]]> (dicts w2)).
    by rewrite lookup_insert_eq.
  - unfold dict_at.
    change (dicts w3)
      with (<[payload := [("state", VDict snapshot); ("logs", VList logs)]]>
              (<[snapshot := kvs]> (dicts w))).
    rewrite lookup_insert_ne by done. by rewrite lookup_insert_eq.
  - unfold list_at.
    change (lists w3) with (<[logs := xs]> (<[l1 := xs]> (lists w1))).
    rewrite lookup_insert_eq. unfold xs.
    change (-200) with (- (200)). rewrite slice_from_neg by lia.
    change (log_buffer w1) with (log_buffer w).
    symmetry. apply (lastn_min 200).
  - unfold log_buffer, list_at.
    change (lists w3) with (<[logs := xs]> (<[l1 := xs]> (lists w))).
    change (_log_lines (state w3)) with (_log_lines (state w)).
    rewrite !lookup_insert_ne; [done| |]; intros Heq;
      [apply Hl1|apply Hl2]; by rewrite Heq.
Qed.

(** [C8], as the code has it.  In any world the class can reach, one pass
    of the streaming loop handles the oldest waiting event [(kind, data)],
    which it takes out of the queue and whose kind is [state] or [log]:
    it hands the text [event: <kind>\ndata: <data>\n\n] to [encode], and
    when [data] holds no surrogate what it writes is exactly the UTF-8
    bytes of that text, [data] being the published text as it is (the JSON
    text of the snapshot for [state], the log line itself for [log]).
    When nothing arrived within the timeout it writes exactly the bytes of
    [:keepalive\n\n], a comment line with no space after the colon.  The
    frame written on connect is that of kind [init] with, as data, what
    [json.dumps] returned for the dict with the keys [state] and [logs];
    it fails only if [json.dumps] does. *)
Theorem sse_frames w q :
  reachable' w ->
  match queue_at w q with
  | [] => sse_iteration q w = (Return keepalive_bytes, w)
  | (kind, data) :: rest =>
      (kind = "state" ∨ kind = "log")
      ∧ result (sse_iteration q) w
        = encode ("event: " +:+ kind +:+ nl
                  +:+ "data: " +:+ data +:+ nl +:+ nl)
      ∧ (has_surrogate (utf8 data) = false ->
         result (sse_iteration q) w
         = Return (utf8 ("event: " +:+ kind +:+ nl
                         +:+ "data: " +:+ data +:+ nl +:+ nl)))
      ∧ queue_at (after (sse_iteration q) w) q = rest
  end
  ∧ keepalive_bytes
    = [Byte.x3a; Byte.x6b; Byte.x65; Byte.x65; Byte.x70; Byte.x61; Byte.x6c;
       Byte.x69; Byte.x76; Byte.x65; Byte.x0a; Byte.x0a]
  ∧ let w0 := after (sse_init_data json_dumps) w in
    ∃ payload snapshot logs,
      dict_at w0 payload = [("state", VDict snapshot); ("logs", VList logs)]
      ∧ dict_at w0 snapshot
        = map (fun x => (attr_name x, fields (state w) x)) to_dict_keys
      ∧ list_at w0 logs
        = lastn (Nat.min 200 (length (log_buffer w))) (log_buffer w)
      ∧ result (sse_connect json_dumps) w
        = match json_dumps w0 (VDict payload) with
          | Return init_data =>
              Return (fresh (dom (queues w)),
                      utf8 ("event: " +:+ "init" +:+ nl
                            +:+ "data: " +:+ init_data +:+ nl +:+ nl))
          | Raise e => Raise e
          end.
Proof.
  intros Hreach. split; [|split; [reflexivity|]].
  - pose proof (reachable_kinds_ok w Hreach q) as Hok.
    unfold queue_at, sse_iteration, result, after, queue_get, lift.
    unfold_M.
    destruct (queues w !! q) as [[n [|[kind data] rest]]|] eqn:HQ; simpl;
      try done.
    assert (kind = "state" ∨ kind = "log") as Hkind.
    { apply (Hok _ (kind, data) eq_refl). simpl. apply elem_of_cons. by left. }
    assert (is_ascii kind = true) as Hascii by (by destruct Hkind as [->| ->]).
    fold (event_text kind data).
    rewrite encode_event_text by done.
    destruct (has_surrogate (utf8 data)); simpl;
      (split; [done|]); (split; [done|]);
      (split; [done|by rewrite lookup_insert_eq]).
  - pose proof (reachable_wf w Hreach) as Hwf.
    destruct (sse_init_data_spec w Hwf)
      as (payload & snapshot & logs & Hres & Hp & Hs & Hl & _ & Hhub & _).
    cbv zeta. exists payload, snapshot, logs.
    split; [done|]. split; [done|]. split; [done|].
    rewrite <- Hres. pose proof (f_equal fst Hhub) as Hqs.
    clear Hres Hp Hs Hl Hhub. cbn [hub fst] in Hqs.
    unfold sse_connect, result, after, lift in *. unfold_M.
    destruct (sse_init_data json_dumps w) as [[init_data|e] w0];
      cbn [fst snd] in *; [|done].
    fold (event_text "init" init_data).
    rewrite (encode_json_event "init" init_data eq_refl).
    unfold subscribe, new_Queue, subscribers_append. unfold_M. cbn [fst].
    by rewrite Hqs.
Qed.

(** ** The log handler *)

Lemma put_each_returns m subs : ∀ dead w,
  ∃ dead' w', put_each m subs dead w = (Return dead', w').
Proof.
  induction subs as [|q rest IH]; intros dead w; simpl.
  - by eexists _, _.
  - unfold_M. unfold put_nowait.
    destruct (queues w !! q) as [Q|]; [destruct (queue_full Q)|]; simpl;
      apply IH.
Qed.

Lemma remove_each_outcome dead : ∀ w,
  (remove_each dead w).1 = Return tt ∨ (remove_each dead w).1 = Raise ValueError.
Proof.
  induction dead as [|q rest IH]; intros w; simpl.
  - by left.
  - unfold_M. unfold subscribers_remove.
    destruct (list_remove q (_subscribers (state w))); simpl; [apply IH|by right].
Qed.

Lemma add_log_outcome line w :
  result (add_log line) w = Return tt ∨ result (add_log line) w = Raise ValueError.
Proof.
  unfold result. rewrite add_log_unfold. unfold _send_event. unfold_M.
  destruct (put_each_returns ("log", line)
              (_subscribers (state (log_appended line w))) []
              (log_appended line w)) as (dead & w' & ->).
  apply remove_each_outcome.
Qed.

(** [C10], as the code has it.  [emit(record)] never raises an error:
    whatever [format] does with the record and whatever the [add_log] of
    its [dash_state] does with the line, an exception derived from
    [Exception] raised by either is discarded and [emit] returns
    normally, leaving the state as the failing call left it; only an
    exception that is not derived from [Exception], such as
    [KeyboardInterrupt], passes through [except Exception].  On the
    global instance [emit] returns whenever [format] does. *)
Theorem emit_never_raises_an_error (dash_state_add_log : string -> M unit) r w :
  match format r with
  | Return line =>
      match dash_state_add_log line w with
      | (Return _, w') =>
          emit format dash_state_add_log r w = (Return tt, w')
      | (Raise e, w') =>
          emit format dash_state_add_log r w
          = (if is_Exception e then Return tt else Raise e, w')
      end
  | Raise e =>
      emit format dash_state_add_log r w
      = (if is_Exception e then Return tt else Raise e, w)
  end
  ∧ match format r with
    | Return line => emit' r w = (Return tt, after (add_log line) w)
    | Raise _ => True
    end.
Proof.
  unfold emit, lift. unfold_M. split.
  - destruct (format r) as [line|e]; simpl.
    + destruct (dash_state_add_log line w) as [[[]|e] w']; simpl; [done|].
      by destruct (is_Exception e).
    + by destruct (is_Exception e).
  - destruct (format r) as [line|e]; simpl; [|done].
    destruct (add_log_outcome line w) as [H|H]; unfold result in H;
      destruct (add_log line w) as [o w']; simpl in *; by subst o.
Qed.

(** * Further properties of the hub *)

Lemma exec_capacity_ok (a : action LogRecord) w :
  wf w -> capacity_ok w -> capacity_ok (exec' a w).
Proof.
  intros Hwf Hok q Q.
  destruct (exec_hub_cases a w Hwf)
    as [(_ & [= Hqs _] & _)|[(m' & _ & Hqs & _)|[(_ & [= Hqs _])
       |[(q' & _ & [= Hqs _])|(q' & _ & [= Hqs _])]]]].
  - rewrite Hqs. apply Hok.
  - rewrite Hqs. case_bool_decide; [|apply Hok].
    destruct (queues w !! q) as [Q0|] eqn:HQ0; [|done].
    intros [= <-]. destruct (Hok q Q0 HQ0) as [Hmax Hlen].
    unfold deliver, queue_full. rewrite Hmax.
    destruct (Z.leb_spec 50 (Z.of_nat (length (items Q0)))); simpl; [done|].
    split; [done|]. rewrite length_app. simpl. lia.
  - rewrite Hqs. destruct (decide (q = fresh (dom (queues w)))) as [->|Hne].
    + rewrite lookup_insert_eq. intros [= <-]. simpl. split; [done|lia].
    + rewrite lookup_insert_ne by done. apply Hok.
  - rewrite Hqs. apply Hok.
  - rewrite Hqs.
    destruct (queues w !! q') as [[n [|m0 rest]]|] eqn:HQ; try apply Hok.
    destruct (decide (q = q')) as [->|Hne].
    + rewrite lookup_insert_eq. intros [= <-]. simpl.
      destruct (Hok q' _ HQ) as [Hmax Hlen]. simpl in *. split; [done|lia].
    + rewrite lookup_insert_ne by done. apply Hok.
Qed.

(** [X1] In every world the class can reach: no queue is registered
    twice, every registered queue exists, the log buffer exists, and every
    queue has capacity 50 and holds at most 50 events. *)
Theorem reachable_hub_is_bounded w :
  reachable' w ->
  NoDup (_subscribers (state w))
  ∧ (∀ q, q ∈ _subscribers (state w) -> is_Some (queues w !! q))
  ∧ _log_lines (state w) ∈ dom (lists w)
  ∧ capacity_ok w.
Proof.
  intros Hreach.
  assert (wf w ∧ capacity_ok w) as [[Hlog Hsubs Hnd] Hcap].
  { induction Hreach as [|w a Hr [IH1 IH2]].
    - split; [apply init_world_wf|].
      intros q Q H. unfold init_world in H. simpl in H.
      by rewrite lookup_empty in H.
    - split; [by apply exec_wf|by apply exec_capacity_ok]. }
  split; [done|]. split; [|done].
  intros q Hq. by apply elem_of_dom, Hsubs.
Qed.

(** What a queue holds and what was taken out of it are together a prefix
    of what it held plus what was published; nothing is missing when the
    queue is still registered at the end. *)
Lemma run_prefix q acts : ∀ w,
  wf w -> q ∈ dom (queues w) ->
  ∃ missed,
    queue_at w q ++ trace' acts w
    = (drained' q acts w ++ queue_at (run' acts w) q) ++ missed
    ∧ (q ∈ _subscribers (state (run' acts w)) -> missed = []).
Proof.
  induction acts as [|a r IH]; intros w Hwf Hdom.
  - exists []. simpl. by rewrite !app_nil_r.
  - rewrite run_cons. simpl.
    pose proof (exec_queue_step a w q Hwf Hdom) as Hstep.
    pose proof (exec_registered a w q Hwf Hdom) as Hreg.
    destruct (IH (exec' a w) (exec_wf a w Hwf)
                 (exec_queues_dom a w q Hwf Hdom)) as (missed & IH1 & IH2).
    destruct (decide (q ∈ _subscribers (state (exec' a w)))) as [Hin|Hout].
    + (* still registered: the event, if any, was delivered *)
      exists missed. split; [|done].
      apply Hreg in Hin as (Hq & _ & Hpub).
      rewrite bool_decide_eq_true_2 in Hstep by done.
      assert (queue_at w q ++ published' a w
              = drained_by q a w ++ queue_at (exec' a w) q) as Heq.
      { rewrite Hstep. destruct Hpub as [->| ->]; simpl; [|done].
        by destruct (negb _). }
      rewrite app_assoc, Heq, <- !app_assoc. f_equal.
      rewrite IH1, <- app_assoc. done.
    + (* not registered after the call: nothing more arrives *)
      destruct (run_unregistered q r (exec' a w) (exec_wf a w Hwf)
                  (exec_queues_dom a w q Hwf Hdom) Hout) as [Hrest Hnever].
      exists (published' a w ++ trace' r (exec' a w)). split; [|done].
      assert (queue_at w q = drained_by q a w ++ queue_at (exec' a w) q) as Heq.
      { rewrite Hstep.
        destruct (bool_decide (q ∈ _subscribers (state w))) eqn:Hq;
          simpl; [|by rewrite app_nil_r].
        apply bool_decide_eq_true in Hq.
        destruct (full_in w q) eqn:Hfull; simpl; [by rewrite app_nil_r|].
        destruct (published' a w) as [|m ms] eqn:Hpub; [by rewrite app_nil_r|].
        destruct Hout. apply Hreg. split; [done|]. split; [|by right].
        destruct (unsubscribes q a) eqn:Hu; [|done].
        destruct a; simpl in Hu, Hpub; done. }
      rewrite Heq at 1. rewrite <- Hrest at 1. by rewrite <- !app_assoc.
Qed.

(** [X2] After [subscribe()] returned [q], whatever is called later and
    whether or not [q] keeps up: the events taken out of [q] followed by
    those waiting in it are a prefix of the events published since, so
    [q] is never handed an event out of order, twice, or after a gap; and
    as long as [q] is registered it has missed nothing. *)
Theorem subscriber_receives_a_prefix w0 q w1 acts :
  wf w0 ->
  subscribe w0 = (Return q, w1) ->
  (drained' q acts w1 ++ queue_at (run' acts w1) q) `prefix_of` trace' acts w1
  ∧ (q ∈ _subscribers (state (run' acts w1)) ->
     drained' q acts w1 ++ queue_at (run' acts w1) q = trace' acts w1).
Proof.
  intros Hwf Hsub.
  assert (w1 = exec' Subscribe w0) as Hw1.
  { simpl. unfold after. by rewrite Hsub. }
  assert (q = fresh (dom (queues w0))) as Hq.
  { unfold subscribe, new_Queue, subscribers_append in Hsub. unfold_M.
    by injection Hsub as <- _. }
  assert (wf w1) as Hwf1 by (rewrite Hw1; by apply exec_wf).
  assert (queues w1 = <[q := mkQueue 50 []]> (queues w0)) as Hqs
    by (by rewrite Hw1, Hq).
  assert (q ∈ dom (queues w1)) as Hdom.
  { rewrite Hqs, dom_insert_L, elem_of_union, elem_of_singleton. auto. }
  destruct (run_prefix q acts w1 Hwf1 Hdom) as (missed & H1 & H2).
  assert (queue_at w1 q = []) as Hempty.
  { unfold queue_at. by rewrite Hqs, lookup_insert_eq. }
  rewrite Hempty in H1. simpl in H1. split.
  - by exists missed.
  - intros Hin. rewrite (H2 Hin), app_nil_r in H1. done.
Qed.

Lemma add_logs_snoc ls l w :
  add_logs (ls ++ [l]) w = after (add_log l) (add_logs ls w).
Proof. unfold add_logs. by rewrite fold_left_app. Qed.

Lemma add_logs_wf ls w : wf w -> wf (add_logs ls w).
Proof. intros Hwf. rewrite add_logs_run. by apply run_wf. Qed.

(** [X3] A subscriber that never takes anything out of its queue: after
    [subscribe()] and [n] calls of [add_log] its queue holds the first
    [min n 50] log events, and it is registered exactly as long as
    [n <= 50]: the 51st event finds the queue full and removes it. *)
Theorem stalled_subscriber_is_dropped_at_the_51st_event w0 q w1 ls :
  wf w0 ->
  subscribe w0 = (Return q, w1) ->
  queue_at (add_logs ls w1) q = take 50 (log_events ls)
  ∧ (q ∈ _subscribers (state (add_logs ls w1)) <-> (length ls <= 50)%nat).
Proof.
  intros Hwf Hsub.
  assert (w1 = exec' Subscribe w0) as Hw1.
  { simpl. unfold after. by rewrite Hsub. }
  assert (q = fresh (dom (queues w0))) as Hq.
  { unfold subscribe, new_Queue, subscribers_append in Hsub. unfold_M.
    by injection Hsub as <- _. }
  assert (wf w1) as Hwf1 by (rewrite Hw1; by apply exec_wf).
  assert (queues (add_logs ls w1) !! q
          = Some (mkQueue 50 (take 50 (log_events ls)))
          ∧ (q ∈ _subscribers (state (add_logs ls w1)) <-> (length ls <= 50)%nat))
    as [HQ Hreg].
  { induction ls as [|l ls IH] using rev_ind.
    - simpl. rewrite Hw1, Hq. simpl. rewrite lookup_insert_eq.
      split; [done|]. rewrite elem_of_app, list_elem_of_singleton.
      split; [lia|auto].
    - destruct IH as [IHQ IHreg]. rewrite add_logs_snoc.
      pose proof (add_logs_wf ls w1 Hwf1) as Hwfk.
      destruct (exec_hub_cases (AddLog l) _ Hwfk)
        as [(Hp & _)|[(m & Hp & Hqs & Hs & _)|[(Ha & _)|[(? & Ha & _)|(? & Ha & _)]]]];
        try done.
      injection Hp as <-. simpl in Hqs, Hs.
      assert (log_events (ls ++ [l]) = log_events ls ++ [("log", l)]) as ->
        by (unfold log_events; by rewrite map_app).
      assert (length (log_events ls) = length ls) as Hevs
        by (unfold log_events; apply length_map).
      rewrite length_app. simpl.
      set (evs := log_events ls) in *.
      assert (full_in (add_logs ls w1) q = bool_decide (50 <= length ls)%nat)
        as Hfull.
      { unfold full_in, queue_full. rewrite IHQ. cbn [maxsize items].
        rewrite length_take, Hevs.
        case_bool_decide;
          destruct (Z.leb_spec 50 (Z.of_nat (50 `min` length ls)));
          try done; lia. }
      specialize (Hqs q). rewrite IHQ in Hqs. cbn [fmap option_fmap option_map] in Hqs.
      destruct (decide (length ls < 50)%nat) as [Hlt|Hge].
      * (* room: the event is appended *)
        assert (q ∈ _subscribers (state (add_logs ls w1))) as Hin
          by (apply IHreg; lia).
        rewrite bool_decide_eq_true_2 in Hqs by done.
        unfold deliver in Hqs. unfold full_in in Hfull. rewrite IHQ in Hfull.
        rewrite Hfull, bool_decide_eq_false_2 in Hqs by lia.
        cbn [maxsize items] in Hqs.
        rewrite (take_ge evs) in Hqs by lia.
        split.
        -- rewrite Hqs. do 2 f_equal. symmetry. apply take_ge.
           rewrite length_app. simpl. lia.
        -- rewrite Hs, list_elem_of_filter. unfold full_in at 1. rewrite IHQ, Hfull.
           rewrite bool_decide_eq_false_2 by lia.
           split; [lia|]. intros _. split; [intros H; exact H|done].
      * (* full, or dropped before *)
        assert (take 50 (evs ++ [("log", l)]) = take 50 evs) as Htake
          by (apply take_app_le; lia).
        rewrite Htake. split.
        -- rewrite Hqs.
           destruct (bool_decide (q ∈ _subscribers (state (add_logs ls w1))));
             [|reflexivity].
           unfold deliver. unfold full_in in Hfull. rewrite IHQ in Hfull.
           by rewrite Hfull, bool_decide_eq_true_2 by lia.
        -- rewrite Hs, list_elem_of_filter. unfold full_in at 1. rewrite IHQ.
           unfold full_in in Hfull. rewrite IHQ in Hfull.
           rewrite Hfull, bool_decide_eq_true_2 by lia.
           split; [|lia]. intros [Hn _]. by destruct Hn. }
  split; [|done]. unfold queue_at. by rewrite HQ.
Qed.

(** * Further properties of the log buffer *)

Lemma add_log_step (K : nat) line w :
  _log_lines (state w) ∈ dom (lists w) ->
  _max_log_lines (state w) = Z.of_nat K -> (0 < K)%nat ->
  log_buffer (after (add_log line) w) = lastn K (log_buffer w ++ [VStr line])
  ∧ _log_lines (state (after (add_log line) w))
    ∈ dom (lists (after (add_log line) w))
  ∧ _max_log_lines (state (after (add_log line) w)) = Z.of_nat K.
Proof.
  intros Hdom HK Hpos.
  destruct (add_log_buffer line w) as (Hb & Hl & Hls & Hm).
  destruct (log_appended_buffer line w Hdom) as (Hb' & Hdom' & Hm').
  split; [|split; [by rewrite Hl, Hls|by rewrite Hm, Hm']].
  rewrite Hb, Hb'. cbv zeta. rewrite HK.
  destruct (Z.ltb_spec (Z.of_nat K)
              (Z.of_nat (length (log_buffer w ++ [VStr line])))).
  - rewrite slice_from_neg by lia. by rewrite Nat2Z.id.
  - symmetry. apply lastn_all. lia.
Qed.

(** [X4] With any bound [K >= 1], and whatever the buffer held before
    (even more than [K] lines): after one or more [add_log] calls the
    buffer is the last [K] of the old lines followed by the new ones, so
    it holds at most [K] lines and the newest line is its last. *)
Theorem log_buffer_keeps_the_last_K (K : nat) ls w :
  _log_lines (state w) ∈ dom (lists w) ->
  _max_log_lines (state w) = Z.of_nat K -> (0 < K)%nat ->
  ls ≠ [] ->
  log_buffer (add_logs ls w) = lastn K (log_buffer w ++ map VStr ls)
  ∧ (length (log_buffer (add_logs ls w)) <= K)%nat
  ∧ last (log_buffer (add_logs ls w)) = VStr <$> last ls.
Proof.
  intros Hdom HK Hpos Hne.
  assert (log_buffer (add_logs ls w) = lastn K (log_buffer w ++ map VStr ls))
    as Heq.
  { destruct ls as [|line r]; [done|]. simpl.
    destruct (add_log_step K line w Hdom HK Hpos) as (Hstep & Hdom1 & HK1).
    rewrite (add_logs_buffer K r) by (done || rewrite Hstep, lastn_length; lia).
    rewrite Hstep, lastn_lastn_app. by rewrite <- app_assoc. }
  rewrite Heq. split; [done|]. split; [rewrite lastn_length; lia|].
  destruct ls as [|line r _] using rev_ind; [done|].
  rewrite map_app, app_assoc. simpl.
  rewrite lastn_app by (simpl; lia). by rewrite !last_snoc.
Qed.

(** [X5] With the bound set to 0 nothing is ever evicted: the trim
    [lines[-0:]] keeps every line, and the buffer grows with each call. *)
Theorem log_buffer_with_bound_0_is_unbounded ls : ∀ w,
  _log_lines (state w) ∈ dom (lists w) ->
  _max_log_lines (state w) = 0 ->
  log_buffer (add_logs ls w) = log_buffer w ++ map VStr ls.
Proof.
  induction ls as [|line r IH]; intros w Hdom HK; simpl.
  - by rewrite app_nil_r.
  - destruct (add_log_buffer line w) as (Hb & Hl & Hls & Hm).
    destruct (log_appended_buffer line w Hdom) as (Hb' & Hdom' & Hm').
    rewrite IH by (by rewrite ?Hl, ?Hls, ?Hm, ?Hm').
    rewrite Hb, Hb'. cbv zeta. rewrite HK.
    destruct (Z.ltb_spec 0 (Z.of_nat (length (log_buffer w ++ [VStr line])))).
    + rewrite slice_from_0. by rewrite <- app_assoc.
    + by rewrite <- app_assoc.
Qed.

(** [X6] [get_logs(n)] for every integer [n]: the last [n] lines when
    [n > 0] (all of them when there are fewer), and otherwise the buffer
    without its first [-n] lines: so [get_logs(-1)] skips the oldest line
    and [get_logs(-len)] returns nothing. *)
Theorem get_logs_for_every_n n w :
  returned_list (get_logs n) w
  = if 0 <? n then lastn (Z.to_nat n) (log_buffer w)
    else drop (Z.to_nat (- n)) (log_buffer w).
Proof.
  rewrite get_logs_returns.
  destruct (Z.ltb_spec 0 n) as [Hpos|Hneg].
  - by apply slice_from_neg.
  - unfold slice_from.
    destruct (Z.ltb_spec (- n) 0) as [?|_]; [lia|].
    destruct (Z.min_spec (- n) (Z.of_nat (length (log_buffer w))))
      as [[_ ->]|[Hle ->]]; [done|].
    rewrite Nat2Z.id, !drop_ge; [done|lia|lia].
Qed.

(** [X7] [add_log(line)] in a well-formed world whose bound is not
    negative: the call returns normally, the line is the newest entry of
    the buffer, and each registered subscriber with room has
    [("log", line)] at the end of its queue, while each full one is
    dropped; no field of the record changes. *)
Theorem add_log_stores_and_publishes_the_line line w :
  wf w -> 0 <= _max_log_lines (state w) ->
  let w' := after (add_log line) w in
  result (add_log line) w = Return tt
  ∧ last (log_buffer w') = Some (VStr line)
  ∧ (∀ q, q ∈ _subscribers (state w) ->
          if full_in w q
          then (queue_at w' q = queue_at w q ∧ q ∉ _subscribers (state w'))
          else (queue_at w' q = queue_at w q ++ [("log", line)]
                ∧ q ∈ _subscribers (state w')))
  ∧ fields (state w') = fields (state w).
Proof.
  intros Hwf HK. cbv zeta.
  assert (wf w) as [Hlog Hsubs Hnd] by done.
  split; [|split; [|split]].
  - unfold result. rewrite add_log_unfold.
    destruct (send_event_run "log" line (log_appended line w)) as (qs & -> & _);
      [|done].
    pose proof (log_appended_hub line w) as [= _ ->]. done.
  - destruct (add_log_buffer line w) as (-> & _).
    destruct (log_appended_buffer line w Hlog) as (-> & _). cbv zeta.
    destruct (Z.ltb_spec (_max_log_lines (state w))
                (Z.of_nat (length (log_buffer w ++ [VStr line])))).
    + destruct (decide (_max_log_lines (state w) = 0)) as [->|Hne].
      * by rewrite slice_from_0, last_snoc.
      * rewrite slice_from_neg by lia.
        rewrite lastn_app by (simpl; lia). by rewrite last_snoc.
    + by rewrite last_snoc.
  - intros q Hq.
    pose proof (exec_queue_step (AddLog line) w q Hwf (Hsubs q Hq)) as Hstep.
    pose proof (exec_registered (AddLog line) w q Hwf (Hsubs q Hq)) as Hreg.
    simpl in Hstep, Hreg. rewrite bool_decide_eq_true_2 in Hstep by done.
    destruct (full_in w q); simpl in Hstep.
    + rewrite app_nil_r in Hstep. split; [done|].
      rewrite Hreg. intros (_ & _ & [?|?]); done.
    + split; [done|]. apply Hreg. auto.
  - apply (exec_fields (AddLog line)).
Qed.

(** * Further properties of the snapshot *)

Lemma dict_get_keys (f : attr -> val) k (keys : list attr) :
  dict_get k (map (fun x => (attr_name x, f x)) keys)
  = f <$> List.find (fun x => String.eqb (attr_name x) k) keys.
Proof.
  induction keys as [|x r IH]; [done|]. simpl.
  by destruct (String.eqb (attr_name x) k).
Qed.

(** [X8] After [state.<name> = v], the dict returned by [to_dict()] has
    [v] under [name] when [name] is one of the 28 fields, and has no key
    [name] otherwise; under the name of every other field it has that
    field's value. *)
Theorem to_dict_shows_an_assigned_field (name : public_name) v w :
  let w1 := after (setattr name v) w in
  let snapshot := dict_at (after to_dict w1) (fresh (dom (dicts w1))) in
  dict_get name snapshot
  = match attr_of_name name with Some _ => Some v | None => None end
  ∧ ∀ x, attr_name x ≠ name ->
         dict_get (attr_name x) snapshot = Some (fields (state w) x).
Proof.
  cbv zeta. rewrite to_dict_contents. split.
  - rewrite dict_get_keys. fold (attr_of_name name).
    destruct (attr_of_name name) as [x|] eqn:Hx; [|done]. simpl.
    rewrite setattr_fields. apply attr_of_name_Some in Hx.
    by rewrite Hx, String.eqb_refl.
  - intros x Hne. rewrite dict_get_keys. fold (attr_of_name (attr_name x)).
    rewrite attr_of_name_name. simpl. rewrite setattr_fields.
    destruct (String.eqb_spec name (attr_name x)) as [Heq|]; [|done].
    by destruct Hne.
Qed.

(** [X9] When [json.dumps] rejects the snapshot, [_notify()] raises that
    exception to its caller and sends nothing: no queue changes, no
    subscriber is dropped, and the record, the lists and the log buffer
    are as before. *)
Theorem notify_sends_nothing_when_dumps_fails w e :
  json_dumps (after to_dict w) (VDict (fresh (dom (dicts w)))) = Raise e ->
  let w' := after _notify' w in
  result _notify' w = Raise e
  ∧ hub w' = hub w ∧ state w' = state w ∧ lists w' = lists w.
Proof.
  intros Hd. cbv zeta. split.
  - unfold result. by rewrite notify_unfold, Hd.
  - rewrite notify_after, Hd. unfold after. by rewrite to_dict_unfold.
Qed.
End Calls.

(** * The theorems at concrete inputs *)

(** [C4] [get_logs(0)] after [add_log("a"); add_log("b")]: the slice
    [self._log_lines[-0:]] is the whole buffer, so both lines come back
    where the last [min(0, 2) = 0] lines are none. *)
Theorem get_logs_0_returns_the_whole_buffer :
  returned_list (get_logs 0) two_lines_world = [VStr "a"; VStr "b"]
  ∧ lastn (Nat.min 0 (length (log_buffer two_lines_world)))
          (log_buffer two_lines_world) = [].
Proof. split; reflexivity. Qed.

Example get_logs_1_returns_the_last_line :
  returned_list (get_logs 1) two_lines_world = [VStr "b"].
Proof. reflexivity. Qed.

Lemma viewer_world_wf : wf viewer_world.
Proof. apply (exec_wf const_dumps id_format Subscribe), init_world_wf. Qed.

(** [C1] No call on the instance both sets [status] to ["scanning"] and
    hands an event to the connected viewer: what [update({status:
    "scanning"})] is said to do takes an assignment and a [_notify()]. *)
Lemma no_call_updates_and_notifies :
  ¬ ∃ a : action string,
      fields (state (exec const_dumps id_format a viewer_world)) status
      = VStr "scanning"
      ∧ queue_at (exec const_dumps id_format a viewer_world) 0%nat ≠ [].
Proof.
  intros (a & Hf & Hq). apply Hq.
  assert (hub (exec const_dumps id_format a viewer_world) = hub viewer_world)
    as [= Hqs _].
  { apply (field_change_sends_nothing _ _ _ _ status). by rewrite Hf. }
  unfold queue_at. by rewrite Hqs.
Qed.

Lemma assign_then_notify_witness :
  wf viewer_world
  ∧ 0%nat ∈ _subscribers (state viewer_world)
  ∧ full_in viewer_world 0%nat = false
  ∧ queue_at
      (after (_notify const_dumps)
         (after (assign_all scanning_fields) viewer_world)) 0%nat
    = queue_at viewer_world 0%nat ++ [("state", "{}")].
Proof.
  assert (wf viewer_world) as H1 by exact viewer_world_wf.
  assert (0%nat ∈ _subscribers (state viewer_world)) as H2
    by (apply list_elem_of_singleton; reflexivity).
  assert (full_in viewer_world 0%nat = false) as H3 by reflexivity.
  split; [exact H1|]. split; [exact H2|]. split; [exact H3|].
  apply (assign_then_notify_sends_the_new_snapshot const_dumps id_format
           scanning_fields viewer_world 0%nat empty_object H1 H2 H3).
  reflexivity.
Defined.

Lemma crowded_world_wf : wf crowded_world.
Proof. apply run_wf, init_world_wf. Qed.

Example crowded_world_publish :
  let w' := after (_send_event "log" "tock") crowded_world in
  _subscribers (state crowded_world) = [0%nat; 1%nat]
  ∧ full_in crowded_world 0%nat = true
  ∧ _subscribers (state w') = [1%nat]
  ∧ length (queue_at w' 0%nat) = 50%nat
  ∧ queue_at w' 1%nat = [("log", "tock")].
Proof. vm_compute. repeat split. Qed.

Lemma send_event_drops_exactly_the_full_witness :
  wf crowded_world
  ∧ let w' := after (_send_event "log" "tock") crowded_world in
    _subscribers (state w')
    = filter (fun q => ¬ full_in crowded_world q)
             (_subscribers (state crowded_world)).
Proof.
  split; [exact crowded_world_wf|].
  exact (proj1 (proj2 (send_event_drops_exactly_the_full
                         "log" "tock" crowded_world crowded_world_wf))).
Defined.

(** [C3] The snapshot taken before [state.positions.append({"market":
    "BTC"})] shows the new position afterwards: the list under its
    [positions] key is the list the state holds. *)
Lemma snapshot_shows_later_position :
  result to_dict init_world = Return 1%nat
  ∧ contents 3 position_added_world (VDict 1%nat)
    ≠ contents 3 snapshot_world (VDict 1%nat).
Proof.
  split; [reflexivity|]. intros H. vm_compute in H. discriminate H.
Qed.

Lemma to_dict_returns_a_shallow_copy_witness :
  forallb (fun a => negb (mutates_dict (fresh (dom (dicts init_world))) a))
          later_calls = true
  ∧ dict_at (run const_dumps id_format later_calls (after to_dict init_world))
            (fresh (dom (dicts init_world)))
    = dict_at (after to_dict init_world) (fresh (dom (dicts init_world))).
Proof.
  assert (forallb (fun a => negb (mutates_dict (fresh (dom (dicts init_world))) a))
                  later_calls = true) as H by reflexivity.
  split; [exact H|].
  apply (to_dict_returns_a_shallow_copy const_dumps id_format init_world
           later_calls).
  exact H.
Defined.

Lemma subscriber_receives_exactly_what_is_published_witness :
  wf init_world
  ∧ subscribe init_world = (Return 0%nat, viewer_world)
  ∧ keeps_up const_dumps id_format 0%nat session viewer_world = true
  ∧ drained const_dumps id_format 0%nat session viewer_world
    ++ queue_at (run const_dumps id_format session viewer_world) 0%nat
    = trace const_dumps id_format session viewer_world.
Proof.
  assert (subscribe init_world = (Return 0%nat, viewer_world)) as H2
    by reflexivity.
  assert (keeps_up const_dumps id_format 0%nat session viewer_world = true)
    as H3 by reflexivity.
  split; [exact init_world_wf|]. split; [exact H2|]. split; [exact H3|].
  apply (subscriber_receives_exactly_what_is_published const_dumps id_format
           init_world 0%nat viewer_world session init_world_wf H2 H3).
Defined.

Example session_delivery :
  trace const_dumps id_format session viewer_world
  = [("log", "a"); ("state", "{}"); ("log", "b")]
  ∧ drained const_dumps id_format 0%nat session viewer_world = [("log", "a")]
  ∧ queue_at (run const_dumps id_format session viewer_world) 0%nat
    = [("state", "{}"); ("log", "b")].
Proof. vm_compute. repeat split. Qed.

Lemma unsubscribe_removes_for_good_witness :
  wf viewer_world
  ∧ 0%nat ∈ dom (queues viewer_world)
  ∧ _subscribers (state (after (unsubscribe 0%nat) viewer_world)) = []
  ∧ queue_at (run const_dumps id_format session
                  (after (unsubscribe 0%nat) viewer_world)) 0%nat = [].
Proof.
  assert (0%nat ∈ dom (queues viewer_world)) as H2
    by (apply elem_of_dom; eexists; reflexivity).
  split; [exact viewer_world_wf|]. split; [exact H2|].
  pose proof (unsubscribe_removes_for_good const_dumps id_format
                viewer_world 0%nat viewer_world_wf H2) as (_ & Hs & _ & _ & _ & Hrun).
  split; [exact Hs|].
  destruct (Hrun session) as [Hq _].
  apply app_eq_nil in Hq. exact (proj2 Hq).
Defined.

(** [C8] With nothing in the queue, the loop writes [:keepalive\n\n]; the
    specified [: keepalive\n\n] has one more byte, the space.  And for
    the event of [add_log("window 1")] it writes
    [event: log\ndata: window 1\n\n]: the data is the line as it is, which
    is no JSON text. *)
Lemma stream_is_not_as_specified :
  (result (sse_iteration 0%nat) viewer_world = Return keepalive_bytes
   ∧ keepalive_bytes ≠ spec_keepalive)
  ∧ (result (sse_iteration 0%nat)
            (exec const_dumps id_format (AddLog "window 1") viewer_world)
     = Return (utf8 ("event: " +:+ "log" +:+ nl
                     +:+ "data: " +:+ "window 1" +:+ nl +:+ nl))
     ∧ spec_json_first "window 1" = false).
Proof.
  split; split; try reflexivity.
  intros H. vm_compute in H. discriminate H.
Qed.

Lemma sse_frames_witness :
  reachable const_dumps id_format
    (exec const_dumps id_format (AddLog "hello") viewer_world)
  ∧ result (sse_iteration 0%nat)
           (exec const_dumps id_format (AddLog "hello") viewer_world)
    = Return (utf8 ("event: " +:+ "log" +:+ nl
                    +:+ "data: " +:+ "hello" +:+ nl +:+ nl)).
Proof.
  assert (reachable const_dumps id_format
            (exec const_dumps id_format (AddLog "hello") viewer_world)) as H.
  { apply (reachable_step const_dumps string id_format viewer_world
                          (AddLog "hello")).
    apply (reachable_step const_dumps string id_format init_world Subscribe).
    apply reachable_init. }
  split; [exact H|].
  pose proof (sse_frames const_dumps id_format _ 0%nat H) as [Hframe _].
  exact (proj1 (proj2 (proj2 Hframe)) eq_refl).
Defined.

(** A log line that holds a surrogate (here U+D800) is taken out of the
    queue and not written: the pass raises [UnicodeEncodeError]. *)
Example surrogate_line_is_not_framed :
  let w := exec const_dumps id_format (AddLog surrogate_line) viewer_world in
  queue_at w 0%nat = [("log", surrogate_line)]
  ∧ result (sse_iteration 0%nat) w = Raise (Exception "UnicodeEncodeError")
  ∧ queue_at (after (sse_iteration 0%nat) w) 0%nat = [].
Proof. vm_compute. repeat split. Qed.

Lemma two_lines_world_wf : wf two_lines_world.
Proof.
  apply (exec_wf const_dumps id_format (AddLog "b")),
        (exec_wf const_dumps id_format (AddLog "a")), init_world_wf.
Qed.

Lemma get_logs_returns_an_independent_list_witness :
  wf two_lines_world
  ∧ ∃ l, result (get_logs 1) two_lines_world = Return l
       ∧ ∀ ls, list_at (add_logs ls (after (get_logs 1) two_lines_world)) l
               = list_at (after (get_logs 1) two_lines_world) l.
Proof.
  split; [exact two_lines_world_wf|].
  destruct (get_logs_returns_an_independent_list const_dumps id_format
              1 two_lines_world two_lines_world_wf)
    as (l & Hl & _ & _ & _ & _ & _ & Hlogs & _).
  exists l. split; [exact Hl|exact Hlogs].
Defined.

(** The names left out of the producer's assignments. *)
Example names_that_are_not_public :
  forallb (fun name => negb (is_public name))
    ["_log_lines"; "_max_log_lines"; "_lock"; "_subscribers";
     "_notify"; "_send_event"; "__class__"; "__dict__";
     "add_log"; "get_logs"; "to_dict"; "subscribe"; "unsubscribe"] = true
  ∧ forallb is_public ["status"; "positions"; "config"; "note"] = true.
Proof. split; reflexivity. Qed.

Example emit_returns_when_format_fails (w : World) :
  emit (fun _ : string => Raise (Exception "TypeError")) add_log "record" w
  = (Return tt, w).
Proof. reflexivity. Qed.

Example emit_returns_when_add_log_fails (w : World) :
  emit id_format (fun _ => raise (Exception "AttributeError")) "record" w
  = (Return tt, w).
Proof. reflexivity. Qed.

(** [C10] A [KeyboardInterrupt] that arrives while the record is
    formatted is not derived from [Exception]: [emit] propagates it to
    its caller. *)
Lemma emit_propagates_KeyboardInterrupt :
  result (emit (fun _ : string => Raise (BaseException "KeyboardInterrupt"))
               add_log "record") init_world
  = Raise (BaseException "KeyboardInterrupt").
Proof. reflexivity. Qed.

(** * The connection of a viewer *)

Section Streaming.
Context (subclass : string -> string -> bool)
        (json_dumps : World -> val -> outcome json_text)
        {LogRecord : Type} (format : LogRecord -> outcome string).

Local Abbreviation exec' := (exec json_dumps format).
Local Abbreviation run' := (run json_dumps format).
Local Abbreviation trace' := (trace json_dumps format).
Local Abbreviation drained' := (drained json_dumps format).
Local Abbreviation sse_loop' := (sse_loop json_dumps format).
Local Abbreviation _serve_sse' := (_serve_sse subclass json_dumps format).
Local Abbreviation sse_init_data' := (sse_init_data json_dumps).
Local Abbreviation Drain' := (@Drain LogRecord).
Implicit Types (acts others : list (action LogRecord))
               (rounds : list (list (action LogRecord))).

Lemma run_app acts1 acts2 w :
  run' (acts1 ++ acts2) w = run' acts2 (run' acts1 w).
Proof. unfold run. apply fold_left_app. Qed.

Lemma drained_app q acts1 acts2 : ∀ w,
  drained' q (acts1 ++ acts2) w
  = drained' q acts1 w ++ drained' q acts2 (run' acts1 w).
Proof.
  induction acts1 as [|a r IH]; intros w; [done|].
  simpl. by rewrite IH, <- app_assoc.
Qed.

Lemma trace_app acts1 acts2 : ∀ w,
  trace' (acts1 ++ acts2) w = trace' acts1 w ++ trace' acts2 (run' acts1 w).
Proof.
  induction acts1 as [|a r IH]; intros w; [done|].
  simpl. by rewrite IH, <- app_assoc.
Qed.

Lemma drained_others q others : ∀ w,
  forallb (fun a => negb (drains q a)) others = true ->
  drained' q others w = [].
Proof.
  induction others as [|a r IH]; intros w Hall; [done|].
  simpl in *. apply andb_prop in Hall as [Ha Hr]. rewrite IH by done.
  rewrite app_nil_r. destruct a; try done. simpl in *.
  by destruct (bool_decide (q0 = q)).
Qed.

Lemma queue_get_cases q w :
  (∃ m, queue_get q w = (Return m, exec' (Drain' q) w)
        ∧ drained_by q (Drain' q) w = [m])
  ∨ (queue_get q w = (Raise Empty, w)
     ∧ exec' (Drain' q) w = w ∧ drained_by q (Drain' q) w = []).
Proof.
  simpl. unfold after, result, queue_get.
  rewrite bool_decide_eq_true_2 by done.
  destruct (queues w !! q) as [[n [|m rest]]|]; simpl; eauto.
Qed.

Lemma wfile_send_cases chunk f :
  no_Empty f ->
  (∃ f1, wfile_send chunk f = (Return tt, f1)
         ∧ written f1 = written f ++ [chunk] ∧ no_Empty f1)
  ∨ (∃ e f1, wfile_send chunk f = (Raise e, f1)
             ∧ e ≠ Empty ∧ written f1 = written f).
Proof.
  unfold no_Empty, wfile_send. intros Hne.
  destruct (fates f) as [|[e|] rest] eqn:Hf; simpl.
  - left. eexists. split; [done|]. simpl. by rewrite ?Hf.
  - right. exists e, (mk_wfile (written f) rest).
    apply Forall_cons in Hne as [He _]. split; [done|]. split; [|done].
    intros ->. done.
  - left. eexists. split; [done|]. simpl.
    apply Forall_cons in Hne as [_ Hr]. done.
Qed.

Lemma send_text_cases text f :
  no_Empty f ->
  (∃ f1, send_text text f = (Return tt, f1)
         ∧ written f1 = written f ++ [utf8 text] ∧ no_Empty f1)
  ∨ (∃ e f1, send_text text f = (Raise e, f1)
             ∧ e ≠ Empty ∧ written f1 = written f).
Proof.
  intros Hne. unfold send_text, encode.
  destruct (has_surrogate (utf8 text)).
  - right. by exists (Exception "UnicodeEncodeError"), f.
  - by apply wfile_send_cases.
Qed.

Lemma schedule_cons q others rounds :
  schedule q (others :: rounds) = (others ++ [Drain' q]) ++ schedule q rounds.
Proof. reflexivity. Qed.

(** What the loop has done when it stands or has ended: it went through
    some [k] passes, the world is what the calls of these passes left,
    and it wrote one chunk per pass, except for a pass whose write
    failed. *)
Lemma sse_loop_spec q rounds : ∀ w f,
  private_queue q rounds = true -> no_Empty f ->
  ∃ k items,
    (k <= length rounds)%nat
    ∧ (sse_loop' q rounds w f).1.2 = run' (schedule q (take k rounds)) w
    ∧ written (sse_loop' q rounds w f).2 = written f ++ map render items
    ∧ omap id items `prefix_of` drained' q (schedule q (take k rounds)) w.
Proof.
  induction rounds as [|others rest IH]; intros w f Hpriv Hne.
  - exists 0%nat, []. simpl. rewrite app_nil_r. by repeat split.
  - simpl in Hpriv. apply andb_prop in Hpriv as [Hothers Hrest].
    assert (∀ k, run' (schedule q (take (S k) (others :: rest))) w
                 = run' (schedule q (take k rest))
                        (exec' (Drain' q) (run' others w))) as Hrun.
    { intros k. simpl take. by rewrite schedule_cons, !run_app. }
    assert (∀ k, drained' q (schedule q (take (S k) (others :: rest))) w
                 = drained_by q (Drain' q) (run' others w)
                   ++ drained' q (schedule q (take k rest))
                               (exec' (Drain' q) (run' others w))) as Hdr.
    { intros k. simpl take. rewrite schedule_cons, !drained_app.
      rewrite drained_others by done. simpl. rewrite app_nil_r.
      by rewrite run_app. }
        simpl sse_loop.
    destruct (queue_get_cases q (run' others w))
      as [([t d] & -> & Hd)|(-> & Hw & Hd)].
    + destruct (send_text_cases (event_text t d) f Hne)
        as [(f1 & -> & Hwr & Hne1)|(e & f1 & -> & He & Hwr)].
      * destruct (IH (exec' (Drain' q) (run' others w)) f1 Hrest Hne1)
          as (k & items & Hk & Hw' & Hwr' & Hpre).
        exists (S k), (Some (t, d) :: items).
        rewrite Hrun, Hdr, Hd, Hw', Hwr', Hwr. simpl.
        split; [lia|]. split; [done|]. split; [by rewrite <- app_assoc|].
        by apply prefix_cons.
      * exists 1%nat, [].
        rewrite Hrun, Hdr. simpl take. unfold schedule at 1 2. simpl.
        destruct e; try done; simpl; rewrite app_nil_r;
          (split; [lia|]); (split; [done|]); (split; [done|]);
          apply prefix_nil.
    + destruct (wfile_send_cases keepalive_bytes f Hne)
        as [(f1 & -> & Hwr & Hne1)|(e & f1 & -> & He & Hwr)].
      * destruct (IH (run' others w) f1 Hrest Hne1)
          as (k & items & Hk & Hw' & Hwr' & Hpre).
        exists (S k), (None :: items).
        rewrite Hrun, Hdr, Hd, Hw, Hw', Hwr', Hwr. simpl.
        split; [lia|]. split; [done|]. split; [by rewrite <- app_assoc|done].
      * exists 1%nat, [].
        rewrite Hrun, Hdr, Hw. simpl take. unfold schedule at 1 2. simpl.
        rewrite app_nil_r. split; [lia|]. split; [done|]. split; [done|].
        apply prefix_nil.
Qed.

(** [X10] The streaming loop of a handler that alone reads its queue, on a
    connection whose writes fail or succeed in any way: the chunks it
    writes are, one for one, the frames of events and keepalives, and the
    events framed are a prefix of those that were waiting in the queue
    followed by those published during the passes made, in that order:
    the viewer is never sent an event twice, out of order, or after one
    it was not sent. *)
Theorem sse_loop_streams_a_prefix_of_the_published q rounds w f :
  wf w -> q ∈ dom (queues w) ->
  private_queue q rounds = true -> no_Empty f ->
  ∃ k items,
    (k <= length rounds)%nat
    ∧ written (sse_loop' q rounds w f).2 = written f ++ map render items
    ∧ omap id items
      `prefix_of` (queue_at w q ++ trace' (schedule q (take k rounds)) w).
Proof.
  intros Hwf Hq Hpriv Hne.
  destruct (sse_loop_spec q rounds w f Hpriv Hne)
    as (k & items & Hk & _ & Hwr & Hpre).
  exists k, items. split; [done|]. split; [done|].
  destruct (run_prefix json_dumps format q (schedule q (take k rounds)) w Hwf Hq)
    as (missed & -> & _).
  etrans; [exact Hpre|]. rewrite <- app_assoc. by apply prefix_app_r.
Qed.

Lemma sse_init_data_run w :
  ∃ D, after sse_init_data' w
       = set_dicts D (after (get_logs 200) (after to_dict w)).
Proof.
  unfold after. rewrite sse_init_data_unfold, to_dict_unfold.
  cbv [snd]. rewrite get_logs_run. cbv [snd]. by eexists.
Qed.

Lemma set_dicts_wf D w : wf w -> wf (set_dicts D w).
Proof. intros [? ? ?]. by split. Qed.

Lemma sse_init_data_wf w :
  wf w -> wf (after sse_init_data' w) ∧ hub (after sse_init_data' w) = hub w.
Proof.
  intros Hwf. destruct (sse_init_data_run w) as [D ->].
  split.
  - apply set_dicts_wf.
    apply (exec_wf json_dumps format (GetLogs 200)),
          (exec_wf json_dumps format ToDict), Hwf.
  - unfold hub, after. rewrite to_dict_unfold. cbv [snd].
    by rewrite get_logs_run.
Qed.

Lemma run_queues_dom acts q : ∀ w,
  wf w -> q ∈ dom (queues w) -> q ∈ dom (queues (run' acts w)).
Proof.
  induction acts as [|a r IH]; intros w Hwf Hq; [done|].
  rewrite run_cons. apply IH; [by apply exec_wf|by apply exec_queues_dom].
Qed.

Lemma sse_loop_wf q rounds : ∀ w f,
  wf w -> wf (sse_loop' q rounds w f).1.2.
Proof.
  induction rounds as [|others rest IH]; intros w f Hwf; [done|].
  simpl.
  pose proof (run_wf json_dumps format others w Hwf) as Hwo.
  destruct (queue_get_cases q (run' others w))
    as [([t d] & Hget & _)|(Hget & _)]; rewrite Hget.
  - pose proof (exec_wf json_dumps format (Drain' q) _ Hwo) as Hwd.
    destruct (send_text _ f) as [[[]|e0] f3]; [by apply IH|].
    destruct e0; try done.
    destruct (wfile_send keepalive_bytes f3) as [[[]|e1] f4];
      [by apply IH|done].
  - destruct (wfile_send keepalive_bytes f) as [[[]|e0] f3];
      [by apply IH|done].
Qed.

(** [X11] However [_serve_sse] returns (after a lost connection, after any
    other exception in the loop, or before it subscribed), the queue it
    made is not in the registry afterwards and the world is well formed:
    a finished handler leaves no subscription behind. *)
Theorem serve_sse_leaves_no_subscription gap rounds w f o w' f' :
  wf w ->
  _serve_sse' gap rounds w f = (Finished o, w', f') ->
  let q := fresh (dom (queues (run' gap (after sse_init_data' w)))) in
  wf w' ∧ q ∉ _subscribers (state w').
Proof.
  intros Hwf Hserve. cbv zeta.
  destruct (sse_init_data_wf w Hwf) as [Hwf0 _].
  pose proof (run_wf json_dumps format gap _ Hwf0) as Hwfg.
  set (w0 := after sse_init_data' w) in *.
  set (q := fresh (dom (queues (run' gap w0)))).
  assert (q ∉ _subscribers (state w0)) as Hfresh0.
  { intros Hin. apply (is_fresh (dom (queues (run' gap w0)))).
    apply run_queues_dom; [done|]. by apply Hwf0. }
  unfold _serve_sse in Hserve. fold w0 in Hserve.
  unfold after in w0.
  destruct (sse_init_data' w) as [[init_data|e] w0'] eqn:Hinit; simpl in w0;
    subst w0; [|by injection Hserve as _ <- _].
  destruct (send_text _ f) as [[[]|e] f1]; [|by injection Hserve as _ <- _].
  assert (subscribe (run' gap w0')
          = (Return q, exec' Subscribe (run' gap w0'))) as Hsub by done.
  rewrite Hsub in Hserve.
  pose proof (exec_wf json_dumps format Subscribe _ Hwfg) as Hwf1.
  destruct (sse_loop' q rounds (exec' Subscribe (run' gap w0')) f1)
    as [[[|e] w2] f2] eqn:Hloop; [done|].
  injection Hserve as _ <- _.
  assert (wf w2) as Hwf2.
  { pose proof (sse_loop_wf q rounds _ f1 Hwf1) as H2.
    by rewrite Hloop in H2. }
  split; [by apply (exec_wf json_dumps format (Unsubscribe q))|].
  pose proof (exec_hub json_dumps format (Unsubscribe q) w2 Hwf2) as [= _ Hs].
  simpl in Hs. rewrite Hs, list_elem_of_filter. tauto.
Qed.

(** [X12] A failure before the loop is not swallowed, even a lost
    connection: when [json.dumps] rejects the init data, or the write of
    the init frame raises, [_serve_sse] raises that exception to its
    caller; it has then subscribed no queue and written nothing.  (The
    init frame is ASCII, so its [encode] does not fail.) *)
Theorem serve_sse_init_failure_propagates gap rounds w f e :
  wf w ->
  result sse_init_data' w = Raise e
  ∨ (∃ init_data rest, result sse_init_data' w = Return init_data
                       ∧ fates f = Some e :: rest) ->
  ∃ w' f', _serve_sse' gap rounds w f = (Finished (Raise e), w', f')
           ∧ hub w' = hub w ∧ written f' = written f.
Proof.
  intros Hwf Hfail. destruct (sse_init_data_wf w Hwf) as [_ Hhub].
  unfold _serve_sse, result, after in *.
  destruct (sse_init_data' w) as [[init_data|e0] w0]; simpl in *.
  - destruct Hfail as [?|(d & rest & [= <-] & Hf)]; [done|].
    unfold send_text. rewrite (encode_json_event "init" init_data eq_refl).
    unfold wfile_send. rewrite Hf. by eexists _, _.
  - destruct Hfail as [[= ->]|(d & rest & ? & _)]; [|done].
    by eexists _, _.
Qed.

(** [X13] The init data of a connecting viewer: the object handed to
    [json.dumps] has the two keys [state] and [logs]; under [state] a dict
    with the current value of each of the 28 fields, under [logs] a list
    of the last [min 200 (len buffer)] log lines, oldest first; computing
    it changes neither the record, nor the buffer, nor any queue or the
    registry. *)
Theorem init_data_shows_the_state_and_the_last_200_lines w :
  wf w ->
  let w0 := after sse_init_data' w in
  ∃ payload snapshot logs,
    result sse_init_data' w = json_dumps w0 (VDict payload)
    ∧ dict_at w0 payload = [("state", VDict snapshot); ("logs", VList logs)]
    ∧ dict_at w0 snapshot
      = map (fun x => (attr_name x, fields (state w) x)) to_dict_keys
    ∧ list_at w0 logs
      = lastn (Nat.min 200 (length (log_buffer w))) (log_buffer w)
    ∧ state w0 = state w ∧ hub w0 = hub w ∧ log_buffer w0 = log_buffer w.
Proof. apply sse_init_data_spec. Qed.









End Streaming.


(** ** The page's log panel *)

Lemma remove_while_over_500_spec passes : ∀ c,
  (length c <= passes + 500)%nat ->
  remove_while_over_500 passes c = lastn 500 c.
Proof.
  induction passes as [|k IH]; intros c Hlen.
  - symmetry. by apply lastn_all.
  - cbn [remove_while_over_500].
    destruct (Nat.ltb_spec 500 (length c)) as [Hgt|Hle].
    + destruct c as [|d c]; [cbn [length] in Hgt; lia|].
      cbn [tail]. cbn [length] in Hlen, Hgt. rewrite IH by lia.
      unfold lastn. cbn [length].
      replace (S (length c) - 500)%nat with (S (length c - 500)) by lia.
      reflexivity.
    + symmetry. by apply lastn_all.
Qed.

Lemma addLogLine_spec line c :
  addLogLine line c = lastn 500 (c ++ [log_div line]).
Proof. unfold addLogLine. apply remove_while_over_500_spec. lia. Qed.

(** [X15] The log panel of the page: after [addLogLine] was called for
    one line or more, from [forEach] on the lines of an init event or for
    one [log] event after the other, and whatever the container held
    before, it holds the last 500 of what it held followed by the
    elements of the new lines, in order, hence never more than 500; the
    container is never cleared, so the lines of a later init event are
    appended to those on display. *)
Theorem log_panel_keeps_the_last_500 line lines c :
  addLogLines (line :: lines) c
  = lastn 500 (c ++ map log_div (line :: lines))
  ∧ (length (addLogLines (line :: lines) c) <= 500)%nat.
Proof.
  assert (addLogLines (line :: lines) c
          = lastn 500 (c ++ map log_div (line :: lines))) as Heq.
  { unfold addLogLines. cbn [fold_left map]. rewrite addLogLine_spec.
    change (c ++ log_div line :: map log_div lines)
      with (c ++ [log_div line] ++ map log_div lines).
    rewrite app_assoc. generalize (c ++ [log_div line]). clear c line.
    induction lines as [|l r IH]; intros c.
    - cbn [fold_left map]. by rewrite app_nil_r.
    - cbn [fold_left map]. rewrite addLogLine_spec, lastn_lastn_app, IH.
      by rewrite <- app_assoc. }
  split; [done|]. rewrite Heq, lastn_length. lia.
Qed.


(** ** The further theorems at concrete inputs *)

Lemma reachable_hub_is_bounded_witness :
  reachable const_dumps id_format viewer_world
  ∧ NoDup (_subscribers (state viewer_world))
  ∧ (∀ q, q ∈ _subscribers (state viewer_world) ->
          is_Some (queues viewer_world !! q))
  ∧ _log_lines (state viewer_world) ∈ dom (lists viewer_world)
  ∧ capacity_ok viewer_world.
Proof.
  assert (reachable const_dumps id_format viewer_world) as H
    by exact (reachable_step const_dumps string id_format init_world Subscribe
                (reachable_init const_dumps string id_format)).
  split; [exact H|].
  exact (reachable_hub_is_bounded const_dumps id_format viewer_world H).
Defined.

Lemma subscriber_receives_a_prefix_witness :
  wf init_world
  ∧ subscribe init_world = (Return 0%nat, viewer_world)
  ∧ (drained const_dumps id_format 0%nat session viewer_world
     ++ queue_at (run const_dumps id_format session viewer_world) 0%nat)
    `prefix_of` trace const_dumps id_format session viewer_world.
Proof.
  assert (subscribe init_world = (Return 0%nat, viewer_world)) as H2
    by reflexivity.
  split; [exact init_world_wf|]. split; [exact H2|].
  exact (proj1 (subscriber_receives_a_prefix const_dumps id_format
                  init_world 0%nat viewer_world session init_world_wf H2)).
Defined.

Lemma stalled_subscriber_is_dropped_at_the_51st_event_witness :
  wf init_world
  ∧ subscribe init_world = (Return 0%nat, viewer_world)
  ∧ queue_at (add_logs (replicate 51 "tick") viewer_world) 0%nat
    = take 50 (log_events (replicate 51 "tick")).
Proof.
  assert (subscribe init_world = (Return 0%nat, viewer_world)) as H2
    by reflexivity.
  split; [exact init_world_wf|]. split; [exact H2|].
  exact (proj1 (stalled_subscriber_is_dropped_at_the_51st_event
                  const_dumps id_format init_world 0%nat viewer_world (replicate 51 "tick")
                  init_world_wf H2)).
Defined.

Lemma log_buffer_keeps_the_last_K_witness :
  _log_lines (state two_lines_world) ∈ dom (lists two_lines_world)
  ∧ _max_log_lines (state two_lines_world) = Z.of_nat 500
  ∧ log_buffer (add_logs ["c"] two_lines_world)
    = lastn 500 (log_buffer two_lines_world ++ map VStr ["c"]).
Proof.
  assert (_log_lines (state two_lines_world) ∈ dom (lists two_lines_world))
    as H1 by exact (wf_log _ two_lines_world_wf).
  assert (_max_log_lines (state two_lines_world) = Z.of_nat 500) as H2
    by reflexivity.
  assert ((0 < 500)%nat) as H3 by lia.
  assert (["c"] ≠ @nil string) as H4 by discriminate.
  split; [exact H1|]. split; [exact H2|].
  exact (proj1 (log_buffer_keeps_the_last_K 500 ["c"] two_lines_world
                  H1 H2 H3 H4)).
Defined.

Lemma unbounded_world_log :
  _log_lines (state unbounded_world) ∈ dom (lists unbounded_world).
Proof. exact (wf_log _ init_world_wf). Qed.

Lemma log_buffer_with_bound_0_is_unbounded_witness :
  _log_lines (state unbounded_world) ∈ dom (lists unbounded_world)
  ∧ _max_log_lines (state unbounded_world) = 0
  ∧ log_buffer (add_logs ["a"; "b"] unbounded_world)
    = log_buffer unbounded_world ++ map VStr ["a"; "b"].
Proof.
  assert (_max_log_lines (state unbounded_world) = 0) as H2 by reflexivity.
  split; [exact unbounded_world_log|]. split; [exact H2|].
  exact (log_buffer_with_bound_0_is_unbounded ["a"; "b"] unbounded_world
           unbounded_world_log H2).
Defined.

Lemma add_log_stores_and_publishes_the_line_witness :
  wf crowded_world
  ∧ 0 <= _max_log_lines (state crowded_world)
  ∧ result (add_log "x") crowded_world = Return tt.
Proof.
  assert (0 <= _max_log_lines (state crowded_world)) as H2
    by (vm_compute; discriminate).
  split; [exact crowded_world_wf|]. split; [exact H2|].
  exact (proj1 (add_log_stores_and_publishes_the_line const_dumps id_format
                  "x" crowded_world
                  crowded_world_wf H2)).
Defined.

Lemma to_dict_shows_an_assigned_field_witness :
  let w1 := after (setattr (Public "status" eq_refl) (VStr "scanning"))
                  init_world in
  dict_get "status" (dict_at (after to_dict w1) (fresh (dom (dicts w1))))
  = Some (VStr "scanning").
Proof.
  exact (proj1 (to_dict_shows_an_assigned_field (Public "status" eq_refl)
                  (VStr "scanning") init_world)).
Defined.

Lemma notify_sends_nothing_when_dumps_fails_witness :
  failing_dumps (after to_dict viewer_world)
                (VDict (fresh (dom (dicts viewer_world))))
  = Raise (Exception "TypeError")
  ∧ result (_notify failing_dumps) viewer_world
    = Raise (Exception "TypeError").
Proof.
  split; [reflexivity|].
  exact (proj1 (notify_sends_nothing_when_dumps_fails failing_dumps
                  viewer_world (Exception "TypeError") eq_refl)).
Defined.

Lemma viewer_queue_exists : 0%nat ∈ dom (queues viewer_world).
Proof. apply elem_of_dom. by eexists. Qed.

Lemma breaking_wfile_no_Empty : no_Empty breaking_wfile.
Proof. unfold no_Empty, breaking_wfile. simpl. by repeat constructor. Qed.

Lemma sse_loop_streams_a_prefix_of_the_published_witness :
  wf viewer_world
  ∧ 0%nat ∈ dom (queues viewer_world)
  ∧ private_queue 0%nat three_rounds = true
  ∧ no_Empty breaking_wfile
  ∧ ∃ k items,
      (k <= length three_rounds)%nat
      ∧ written (sse_loop const_dumps id_format 0%nat three_rounds
                   viewer_world breaking_wfile).2
        = written breaking_wfile ++ map render items
      ∧ omap id items
        `prefix_of` (queue_at viewer_world 0%nat
                     ++ trace const_dumps id_format
                          (schedule 0%nat (take k three_rounds)) viewer_world).
Proof.
  assert (private_queue 0%nat three_rounds = true) as H3 by reflexivity.
  split; [exact viewer_world_wf|]. split; [exact viewer_queue_exists|].
  split; [exact H3|]. split; [exact breaking_wfile_no_Empty|].
  exact (sse_loop_streams_a_prefix_of_the_published const_dumps id_format
           0%nat three_rounds viewer_world breaking_wfile
           viewer_world_wf viewer_queue_exists H3 breaking_wfile_no_Empty).
Defined.

Lemma serve_sse_leaves_no_subscription_witness :
  let r := _serve_sse builtin_subclass const_dumps id_format
             [] three_rounds init_world breaking_wfile in
  wf init_world
  ∧ r = (Finished (Return tt), r.1.2, r.2)
  ∧ wf r.1.2
  ∧ 0%nat ∉ _subscribers (state r.1.2).
Proof.
  cbv zeta.
  set (r := _serve_sse builtin_subclass const_dumps id_format
              [] three_rounds init_world breaking_wfile).
  assert (r = (Finished (Return tt), r.1.2, r.2)) as H2 by reflexivity.
  split; [exact init_world_wf|]. split; [exact H2|].
  exact (serve_sse_leaves_no_subscription builtin_subclass const_dumps
           id_format [] three_rounds init_world breaking_wfile
           (Return tt) r.1.2 r.2 init_world_wf H2).
Defined.

Lemma serve_sse_init_failure_propagates_witness :
  wf init_world
  ∧ fates closed_wfile = [Some (Exception "BrokenPipeError")]
  ∧ ∃ w' f',
      _serve_sse builtin_subclass const_dumps id_format
        [] three_rounds init_world closed_wfile
      = (Finished (Raise (Exception "BrokenPipeError")), w', f')
      ∧ hub w' = hub init_world ∧ written f' = written closed_wfile.
Proof.
  split; [exact init_world_wf|]. split; [reflexivity|].
  apply (serve_sse_init_failure_propagates builtin_subclass const_dumps
           id_format [] three_rounds init_world closed_wfile
           (Exception "BrokenPipeError") init_world_wf).
  right. exists empty_object, []. split; reflexivity.
Defined.

Lemma init_data_shows_the_state_and_the_last_200_lines_witness :
  wf two_lines_world
  ∧ state (after (sse_init_data const_dumps) two_lines_world)
    = state two_lines_world.
Proof.
  split; [exact two_lines_world_wf|].
  destruct (init_data_shows_the_state_and_the_last_200_lines const_dumps
              two_lines_world two_lines_world_wf)
    as (payload & snapshot & logs & _ & _ & _ & _ & H & _).
  exact H.
Defined.


(** The connection of [breaking_wfile]: the init frame and the frame of
    the first line are written, the keepalive of the second pass finds
    the pipe broken; the handler returns normally and is unsubscribed. *)
Example breaking_connection :
  let r := _serve_sse builtin_subclass const_dumps id_format
             [] three_rounds init_world breaking_wfile in
  r.1.1 = Finished (Return tt)
  ∧ written r.2 = [utf8 (event_text "init" "{}");
                   utf8 (event_text "log" "a")]
  ∧ _subscribers (state r.1.2) = [].
Proof. vm_compute. repeat split. Qed.

(** Such a line ends the stream of every viewer connected when it is
    logged, on a connection that is in order: [UnicodeEncodeError] is not
    one of the caught classes, so the handler raises it, unsubscribed. *)
Example surrogate_line_ends_the_stream :
  let r := _serve_sse builtin_subclass const_dumps id_format
             [] [[AddLog surrogate_line]] init_world healthy_wfile in
  r.1.1 = Finished (Raise (Exception "UnicodeEncodeError"))
  ∧ written r.2 = [utf8 (event_text "init" "{}")]
  ∧ _subscribers (state r.1.2) = [].
Proof. vm_compute. repeat split. Qed.

(** An error line that also mentions a warning is shown as an error. *)
Example error_line_class :
  className (log_div (js "12:00 [ERROR] after [WARNING]"))
  = js "log-line error".
Proof. reflexivity. Qed.

